(** * Bayesian straight-line fit: grid posterior and contour levels

    A shallow embedding of the code cells of [Solutions-02.ipynb] and
    [03-Bayesian-Modeling-With-MCMC.ipynb]: the synthetic data generators,
    the Gaussian log-likelihood, the two log-priors, the contour-level
    computation and the grid evaluation done by [plot_results].

    Number model.  A NumPy [float64] is a value of [float]: either a finite
    value carrying an exact real, or one of the IEEE special values
    [inf], [-inf], [nan].  The special values follow the IEEE-754 rules
    that NumPy exposes (with its default error state, which warns and
    never raises).  Rounding, overflow and underflow of finite values and
    the sign of zero are not modelled: arithmetic on finite values is
    exact.  Where a property would depend on rounding, it is stated on
    the float operations themselves, or under conditions that keep
    rounding from changing the outcome.  Constants that the code computes
    once are given as the doubles they evaluate to. *)

From Stdlib Require Import String.
From Stdlib Require Import Reals Lra Lia List ZArith Bool Arith.
From Stdlib Require Import Permutation Sorted.
From Equations Require Import Equations.
Import ListNotations.

Open Scope R_scope.

(** ** Python exceptions *)

Module Py.

Inductive exn : Type :=
| IndexError
| ValueError.

Inductive result (A : Type) : Type :=
| Ok (a : A)
| Raise (e : exn).

Arguments Ok {A} a.
Arguments Raise {A} e.

Definition bind {A B : Type} (c : result A) (k : A -> result B) : result B :=
  match c with
  | Ok a => k a
  | Raise e => Raise e
  end.

Definition raises {A : Type} (c : result A) : Prop :=
  exists e, c = Raise e.

(** [seq[i]] for a non-negative index. *)
Definition getitem {A : Type} (l : list A) (i : nat) : result A :=
  match nth_error l i with
  | Some v => Ok v
  | None => Raise IndexError
  end.

(** Evaluation of a list of computations from left to right; the first
    exception wins, as in a list comprehension. *)
Fixpoint sequence {A : Type} (cs : list (result A)) : result (list A) :=
  match cs with
  | [] => Ok []
  | c :: cs' =>
      bind c (fun a => bind (sequence cs') (fun l => Ok (a :: l)))
  end.

End Py.

Import Py.

Notation "x <- c ;; k" := (Py.bind c (fun x => k))
  (at level 61, c at next level, right associativity).

(** ** The float model *)

Inductive float : Type :=
| Fin (r : R)
| PInf
| NInf
| NaN.

Definition Rltb (x y : R) : bool := if Rlt_dec x y then true else false.
Definition Rleb (x y : R) : bool := if Rle_dec x y then true else false.

Definition isnan (a : float) : bool :=
  match a with NaN => true | _ => false end.

Definition isfinite (a : float) : bool :=
  match a with Fin _ => true | _ => false end.

Definition fneg (a : float) : float :=
  match a with
  | Fin x => Fin (- x)
  | PInf => NInf
  | NInf => PInf
  | NaN => NaN
  end.

(** The sum of two finite values is exact: it is neither rounded nor
    does it overflow. *)
Definition fadd (a b : float) : float :=
  match a, b with
  | NaN, _ | _, NaN => NaN
  | Fin x, Fin y => Fin (x + y)
  | PInf, NInf | NInf, PInf => NaN
  | PInf, _ | _, PInf => PInf
  | NInf, _ | _, NInf => NInf
  end.

Definition fsub (a b : float) : float := fadd a (fneg b).

(** The infinity whose sign is the sign of [x]; [nan] for [x = 0]. *)
Definition signed_inf (x : R) (pos neg : float) : float :=
  if Rltb 0 x then pos else if Rltb x 0 then neg else NaN.

(** The product of two finite values is exact: it is neither rounded
    nor does it overflow or underflow. *)
Definition fmul (a b : float) : float :=
  match a, b with
  | NaN, _ | _, NaN => NaN
  | Fin x, Fin y => Fin (x * y)
  | Fin x, PInf | PInf, Fin x => signed_inf x PInf NInf
  | Fin x, NInf | NInf, Fin x => signed_inf x NInf PInf
  | PInf, PInf | NInf, NInf => PInf
  | PInf, NInf | NInf, PInf => NInf
  end.

(** A zero divisor is read as [+0.0]. *)
Definition fdiv (a b : float) : float :=
  match a, b with
  | NaN, _ | _, NaN => NaN
  | Fin x, Fin y =>
      if Rltb 0 y || Rltb y 0 then Fin (x / y) else signed_inf x PInf NInf
  | Fin _, PInf | Fin _, NInf => Fin 0
  | PInf, Fin y => if Rltb y 0 then NInf else PInf
  | NInf, Fin y => if Rltb y 0 then PInf else NInf
  | PInf, PInf | PInf, NInf | NInf, PInf | NInf, NInf => NaN
  end.

(** [a ** 2] on a NumPy float; like every product of finite values it
    is exact here.  (Where the square overflows, NumPy gives [inf] and
    Python's own float raises [OverflowError].) *)
Definition fsq (a : float) : float := fmul a a.

Definition fabs (a : float) : float :=
  match a with
  | Fin x => Fin (Rabs x)
  | PInf | NInf => PInf
  | NaN => NaN
  end.

(** [np.log]. *)
Definition flog (a : float) : float :=
  match a with
  | Fin x => if Rltb 0 x then Fin (ln x) else if Rltb x 0 then NaN else NInf
  | PInf => PInf
  | NInf | NaN => NaN
  end.

(** [np.exp]. *)
Definition fexp (a : float) : float :=
  match a with
  | Fin x => Fin (exp x)
  | PInf => PInf
  | NInf => Fin 0
  | NaN => NaN
  end.

(** [np.sqrt]. *)
Definition fsqrt (a : float) : float :=
  match a with
  | Fin x => if Rltb x 0 then NaN else Fin (sqrt x)
  | PInf => PInf
  | NInf | NaN => NaN
  end.

(** IEEE [a < b]: false as soon as one side is [nan]. *)
Definition flt (a b : float) : bool :=
  match a, b with
  | NaN, _ | _, NaN => false
  | Fin x, Fin y => Rltb x y
  | NInf, Fin _ | NInf, PInf | Fin _, PInf => true
  | _, _ => false
  end.

(** IEEE [a <= b]. *)
Definition fle (a b : float) : bool :=
  match a, b with
  | NaN, _ | _, NaN => false
  | Fin x, Fin y => Rleb x y
  | NInf, _ | _, PInf => true
  | _, _ => false
  end.

(** The order NumPy sorts and searches with: [<], with [nan] above
    everything else. *)
Definition np_less (a b : float) : bool :=
  flt a b || (isnan b && negb (isnan a)).

(** ** NumPy arrays and reductions

    A one-dimensional array is a [list float], a two-dimensional one a
    list of rows. *)

Definition array := list float.
Definition array2 := list (list float).

Definition ravel (g : array2) : array := concat g.

(** Element-wise binary operation on two one-dimensional arrays with
    NumPy's broadcasting: equal lengths, or one side of length one. *)
Fixpoint zip_with (f : float -> float -> float) (a b : array) : array :=
  match a, b with
  | x :: a', y :: b' => f x y :: zip_with f a' b'
  | _, _ => []
  end.

Definition broadcast2 (f : float -> float -> float) (a b : array)
  : result array :=
  if Nat.eqb (length a) (length b) then Ok (zip_with f a b)
  else match a, b with
       | [x], _ => Ok (map (f x) b)
       | _, [y] => Ok (map (fun x => f x y) a)
       | _, _ => Raise ValueError
       end.

(** [np.sum]: the sum does not depend on the order of the additions in
    this model ([fadd] is associative and commutative), so the left fold
    stands for NumPy's pairwise summation. *)
Definition np_sum (a : array) : float := fold_left fadd a (Fin 0).

(** [np.cumsum]: running sums, [acc] being the sum of what came before. *)
Fixpoint cumsum_from (acc : float) (a : array) : array :=
  match a with
  | [] => []
  | x :: a' => fadd acc x :: cumsum_from (fadd acc x) a'
  end.

Definition np_cumsum (a : array) : array :=
  match a with
  | [] => []
  | x :: a' => x :: cumsum_from x a'
  end.

(** [np.all(np.abs(theta) < bound)]. *)
Definition np_all (bs : list bool) : bool := forallb (fun b => b) bs.

(** [np.max] of a non-empty array; [nan] propagates. *)
Definition fmax (a b : float) : float :=
  if fle b a || isnan a then a else b.

Definition np_max (a : array) : result float :=
  match a with
  | [] => Raise ValueError
  | x :: a' => Ok (fold_left fmax a' x)
  end.

(** [np.sort]: ascending for [np_less].  The sorted array is determined
    by its input, whatever the sorting algorithm; insertion sort
    computes it. *)
Fixpoint insert_sorted (x : float) (a : array) : array :=
  match a with
  | [] => [x]
  | y :: a' => if np_less y x then y :: insert_sorted x a' else x :: y :: a'
  end.

Fixpoint np_sort (a : array) : array :=
  match a with
  | [] => []
  | x :: a' => insert_sorted x (np_sort a')
  end.

(** [np.searchsorted(a, v)] with the default [side='left']: bisection,
    moving right past every probed element that is below [v]. *)
Definition midpoint (lo hi : nat) : nat := (lo + (hi - lo) / 2)%nat.

Equations? bisect_left (a : array) (v : float) (lo hi : nat) : nat
  by wf (hi - lo)%nat lt :=
  bisect_left a v lo hi with lt_dec lo hi => {
    | left _ =>
        if np_less (nth (midpoint lo hi) a NaN) v
        then bisect_left a v (S (midpoint lo hi)) hi
        else bisect_left a v lo (midpoint lo hi);
    | right _ => lo }.
Proof.
  all: assert ((lo <= midpoint lo hi < hi)%nat)
         by (unfold midpoint;
             assert (((hi - lo) / 2 < hi - lo)%nat)
               by (apply Nat.div_lt; lia);
             lia);
       lia.
Qed.

Definition np_searchsorted (a : array) (v : float) : nat :=
  bisect_left a v 0 (length a).

(** [a[idx]] for an array of indices. *)
Definition take (a : array) (idx : list nat) : result array :=
  sequence (map (getitem a) idx).

(** [np.linspace(start, stop)] with the default [num = 50]: evenly spaced
    points, the last one set to [stop] itself. *)
Definition linspace_num : nat := 50.

Definition linspace (start stop : float) : array :=
  let div := Fin (INR (linspace_num - 1)) in
  let step := fdiv (fsub stop start) div in
  map (fun i => fadd (fmul (Fin (INR i)) step) start)
      (seq 0 (linspace_num - 1)) ++ [stop].

(** [np.ones_like(a)]. *)
Definition ones_like (a : array) : array := map (fun _ => Fin 1) a.

(** ** The pseudo-random generator

    [np.random.RandomState] is taken as an interface: a state made from a
    seed, one uniform draw on [0, 1) and one standard normal draw, each
    returning the next state.  [rand(N)] and [randn(N)] fill an array of
    [N] elements with consecutive draws. *)

Class RandomState : Type := {
  rng_state : Type;
  rng_seed : Z -> rng_state;
  random_sample : rng_state -> R * rng_state;
  standard_normal : rng_state -> R * rng_state
}.

Section Generators.

Context {RNG : RandomState}.

(** [np.random.RandomState(rseed)]: the seed is a 32-bit unsigned
    integer. *)
Definition RandomState_init (rseed : Z) : result rng_state :=
  if ((0 <=? rseed) && (rseed <? 2 ^ 32))%Z then Ok (rng_seed rseed)
  else Raise ValueError.

Fixpoint draws (draw : rng_state -> R * rng_state) (n : nat) (s : rng_state)
  : array * rng_state :=
  match n with
  | O => ([], s)
  | S n' =>
      let (v, s1) := draw s in
      let (vs, s2) := draws draw n' s1 in
      (Fin v :: vs, s2)
  end.

(** [rand.rand(N)]; a negative dimension is refused, and the array of
    any other dimension is taken to be allocated. *)
Definition rand_rand (s : rng_state) (N : Z) : result (array * rng_state) :=
  if (N <? 0)%Z then Raise ValueError
  else Ok (draws random_sample (Z.to_nat N) s).

(** [rand.randn(N)]. *)
Definition rand_randn (s : rng_state) (N : Z) : result (array * rng_state) :=
  if (N <? 0)%Z then Raise ValueError
  else Ok (draws standard_normal (Z.to_nat N) s).

(** [make_data(intercept, slope, N, dy, rseed)], both notebooks. *)
Definition make_data (intercept slope : float) (N : Z) (dy : float)
    (rseed : Z) : result (array * array * array) :=
  rand <- RandomState_init rseed ;;
  u <- rand_rand rand N ;;
  let x := map (fmul (Fin 100)) (fst u) in
  let y := map (fun xi => fadd intercept (fmul slope xi)) x in
  g <- rand_randn (snd u) N ;;
  y' <- broadcast2 fadd y (map (fmul dy) (fst g)) ;;
  Ok (x, y', map (fmul dy) (ones_like x)).

(** [make_data_scatter(intercept, slope, scatter, N, dy, rseed)] of the
    MCMC notebook. *)
Definition make_data_scatter (intercept slope scatter : float) (N : Z)
    (dy : float) (rseed : Z) : result (array * array * array) :=
  rand <- RandomState_init rseed ;;
  u <- rand_rand rand 20 ;;
  let x := map (fmul (Fin 100)) (fst u) in
  let y := map (fun xi => fadd intercept (fmul slope xi)) x in
  g <- rand_randn (snd u) 20 ;;
  y' <- broadcast2 fadd y
          (map (fmul (fsqrt (fadd (fsq dy) (fsq scatter)))) (fst g)) ;;
  Ok (x, y', map (fmul dy) (ones_like x)).

End Generators.

(** A stand-in generator for worked examples: the state is a counter,
    the uniform draw is its residue modulo 100 over 100, the normal draw
    is the counter itself. *)
#[local] Instance counter_generator : RandomState := {|
  rng_state := Z;
  rng_seed := fun seed => seed;
  random_sample := fun s => (IZR (s mod 100) / 100, (s + 1)%Z);
  standard_normal := fun s => (IZR s, (s + 1)%Z)
|}.

(** ** Likelihood and priors *)

(** [log_likelihood(theta, x, y, dy)], both notebooks. *)
Definition log_likelihood (theta x y dy : array) : result float :=
  t0 <- getitem theta 0 ;;
  t1 <- getitem theta 1 ;;
  let y_model := map (fun xi => fadd t0 (fmul t1 xi)) x in
  let norm := map (fun d => flog (fmul (fmul (Fin 2) (Fin PI)) (fsq d))) dy in
  resid <- broadcast2 fsub y y_model ;;
  chi <- broadcast2 fdiv (map fsq resid) (map fsq dy) ;;
  terms <- broadcast2 fadd norm chi ;;
  Ok (fmul (Fin (- (1 / 2))) (np_sum terms)).

(** [log_flat_prior(theta)] of the solutions notebook. *)
Definition log_flat_prior (theta : array) : float :=
  if np_all (map (fun t => flt (fabs t) (Fin 1000)) theta) then Fin 0
  else NInf.

(** [log_prior(theta)] of the MCMC notebook. *)
Definition log_prior (theta : array) : float :=
  if np_all (map (fun t => flt (fabs t) (Fin 1000)) theta) then Fin 0
  else NInf.

(** [log_posterior(theta, x, y, dy)] of the MCMC notebook. *)
Definition log_posterior (theta x y dy : array) : result float :=
  ll <- log_likelihood theta x y dy ;;
  Ok (fadd (log_prior theta) ll).

(** [log_symmetric_prior(theta)]. *)
Definition log_symmetric_prior (theta : array) : result float :=
  t0 <- getitem theta 0 ;;
  if flt (fabs t0) (Fin 1000) then
    t1 <- getitem theta 1 ;;
    Ok (fmul (Fin (- (3 / 2))) (flog (fadd (Fin 1) (fsq t1))))
  else Ok NInf.

(** ** Contour levels *)

(** The three mass fractions [np.array([0.68, 0.95, 0.997]) ** 2], as the
    doubles this expression evaluates to.  The square of the double
    nearest to 0.68 rounds to 8329857870784471 / 2^54, just above 0.4624;
    that of 0.95 to 8128997327403745 / 2^53, just below 0.9025; that of
    0.997 to 8953237124005839 / 2^53, just above 0.994009. *)
Definition fraction_1sigma : R := 8329857870784471 / 18014398509481984.
Definition fraction_2sigma : R := 8128997327403745 / 9007199254740992.
Definition fraction_3sigma : R := 8953237124005839 / 9007199254740992.

Definition mass_fractions : array :=
  [Fin fraction_1sigma; Fin fraction_2sigma; Fin fraction_3sigma].

(** [contour_levels(grid)]. *)
Definition contour_levels (grid : array2) : result array :=
  let sorted_ := rev (np_sort (ravel grid)) in
  let total := np_sum sorted_ in
  let pct := map (fun c => fdiv c total) (np_cumsum sorted_) in
  let cutoffs := map (np_searchsorted pct) mass_fractions in
  take sorted_ cutoffs.

(** ** Grid evaluation and plotting *)

(** The calls [plot_results] makes on the two axes. *)
Inductive axes_call : Type :=
| contourf (X Y : array) (Z : array2) (levels : nat) (cmap : string)
| contour (X Y : array) (Z : array2) (levels : array)
    (colors : string)
| set_title (label : string)
| grid (visible linestyle color : string) (alpha : R)
| set_axisbelow (b : bool)
| set_xlabel (label : string)
| set_ylabel (label : string).

(** The [levels] argument of a [contour] call. *)
Definition contour_call_levels (c : axes_call) : option array :=
  match c with
  | contour _ _ _ levels _ => Some levels
  | _ => None
  end.

(** The comprehension
    [[[log_likelihood([b, m], x, y, dy) + prior([b, m]) for m in
    slope_range] for b in intercept_range]]. *)
Definition log_P (prior : array -> result float) (x y dy : array)
    (slope_range intercept_range : array) : result array2 :=
  sequence
    (map (fun b =>
       sequence
         (map (fun m =>
            ll <- log_likelihood [b; m] x y dy ;;
            lp <- prior [b; m] ;;
            Ok (fadd ll lp)) slope_range)) intercept_range).

Definition log_P1 := log_P (fun theta => Ok (log_flat_prior theta)).
Definition log_P2 := log_P log_symmetric_prior.

(** [np.exp(log_P - np.max(log_P))]. *)
Definition normalized (logP : array2) : result array2 :=
  top <- np_max (ravel logP) ;;
  Ok (map (map (fun v => fexp (fsub v top))) logP).

Definition axes_tail : list axes_call :=
  [grid "on"%string ":"%string "gray"%string (1 / 2); set_axisbelow false;
   set_xlabel "slope"%string; set_ylabel "intercept"%string].

(** [plot_results(x, y, dy, slope_limits, intercept_limits)]: the calls
    made on [ax[0]] and on [ax[1]], in program order. *)
Definition plot_results (x y dy : array)
    (slope_limits intercept_limits : float * float)
  : result (list axes_call * list axes_call) :=
  let slope_range := linspace (fst slope_limits) (snd slope_limits) in
  let intercept_range :=
    linspace (fst intercept_limits) (snd intercept_limits) in
  lP1 <- log_P1 x y dy slope_range intercept_range ;;
  lP2 <- log_P2 x y dy slope_range intercept_range ;;
  P1 <- normalized lP1 ;;
  P2 <- normalized lP2 ;;
  levels0 <- contour_levels P1 ;;
  levels1 <- contour_levels P1 ;;
  Ok ([contourf slope_range intercept_range P1 100 "Blues"%string;
       contour slope_range intercept_range P1 levels0 "black"%string;
       set_title "Flat Prior"%string] ++ axes_tail,
      [contourf slope_range intercept_range P2 100 "Blues"%string;
       contour slope_range intercept_range P2 levels1 "black"%string;
       set_title "Symmetric Prior"%string] ++ axes_tail).

(** ** Observation sets and the algorithm in the specification's words *)

(** One observation: the point [(x, y)] and its known uncertainty. *)
Record observation : Type := {
  obs_x : R;
  obs_y : R;
  obs_sigma : R
}.

Definition xs (obs : list observation) : array :=
  map (fun o => Fin (obs_x o)) obs.
Definition ys (obs : list observation) : array :=
  map (fun o => Fin (obs_y o)) obs.
Definition sigmas (obs : list observation) : array :=
  map (fun o => Fin (obs_sigma o)) obs.

Definition Rsum (l : list R) : R := fold_right Rplus 0 l.

(** The Gaussian term of one observation for the line
    [intercept + slope * x]. *)
Definition gauss_term (intercept slope : R) (o : observation) : R :=
  - (1 / 2) * (ln (2 * PI * Rsqr (obs_sigma o))
               + Rsqr (obs_y o - (intercept + slope * obs_x o)) / Rsqr (obs_sigma o)).

(** The summand [np.log(2 * np.pi * dy ** 2) + (y - y_model) ** 2 / dy ** 2]
    of one observation, in float arithmetic. *)
Definition float_term (t0 t1 : float) (o : observation) : float :=
  fadd (flog (fmul (fmul (Fin 2) (Fin PI)) (fsq (Fin (obs_sigma o)))))
       (fdiv (fsq (fsub (Fin (obs_y o))
                        (fadd t0 (fmul t1 (Fin (obs_x o))))))
             (fsq (Fin (obs_sigma o)))).

(** A parameter inside the prior's box. *)
Definition within_bound (t : float) : Prop :=
  exists r, t = Fin r /\ Rabs r < 1000.

(** A log-density: a finite value or [-inf]. *)
Definition log_density (v : float) : Prop :=
  v = NInf \/ exists r, v = Fin r.

(** A density: a finite value that is not negative. *)
Definition density (v : float) : Prop :=
  exists r, v = Fin r /\ 0 <= r.

(** The grids that the evaluator of [plot_results] can produce: the
    log-posterior of an observation set over the two parameter ranges,
    under the flat or under the symmetric prior. *)
Definition log_posterior_grid (logP : array2) : Prop :=
  exists (obs : list observation) (slope_limits intercept_limits : R * R),
    let slope_range :=
      linspace (Fin (fst slope_limits)) (Fin (snd slope_limits)) in
    let intercept_range :=
      linspace (Fin (fst intercept_limits)) (Fin (snd intercept_limits)) in
    log_P1 (xs obs) (ys obs) (sigmas obs) slope_range intercept_range
    = Ok logP
    \/ log_P2 (xs obs) (ys obs) (sigmas obs) slope_range intercept_range
       = Ok logP.

(** A finite float. *)
Definition finite (v : float) : Prop := exists r, v = Fin r.

Definition ascending (s : array) : Prop :=
  StronglySorted (fun a b => fle a b = true) s.

(** Contour levels as the specification words them: the values sorted in
    descending order, the cumulative mass fraction at each position, and
    for a target the first position whose fraction meets or exceeds it. *)
Definition descending (s : array) : Prop :=
  StronglySorted (fun a b => fle b a = true) s.

Definition cumulative_fraction (s : array) (i : nat) : float :=
  fdiv (np_sum (firstn (S i) s)) (np_sum s).

Definition first_position (s : array) (target : float) (i : nat) : Prop :=
  (i < length s)%nat /\
  fle target (cumulative_fraction s i) = true /\
  forall j, (j < i)%nat -> fle target (cumulative_fraction s j) = false.

Definition threshold_at (s : array) (target level : float) : Prop :=
  exists i, first_position s target i /\ nth_error s i = Some level.

(** The levels that the algorithm gives for a list of targets. *)
Definition levels_at (targets : array) (grid : array2) (levels : array)
  : Prop :=
  exists s,
    Permutation s (ravel grid) /\ descending s /\
    Forall2 (threshold_at s) targets levels.

(** The targets as the specification names them: the exact squares. *)
Definition target_fractions : array :=
  [Fin ((68 / 100) ^ 2); Fin ((95 / 100) ^ 2); Fin ((997 / 1000) ^ 2)].

Definition contour_levels_spec (grid : array2) (levels : array) : Prop :=
  levels_at target_fractions grid levels.

(** A cumulative fraction that keeps clear of a target: the two differ
    by more than one part in a million, which is far more than rounding
    can move either of them on a grid of at most a million cells. *)
Definition clear_of (target fraction : float) : Prop :=
  exists t f,
    target = Fin t /\ fraction = Fin f /\
    (f <= t * (1 - / 1000000) \/ t * (1 + / 1000000) <= f).

(** A grid none of whose cumulative fractions comes near a target. *)
Definition well_separated (grid : array2) : Prop :=
  forall s, Permutation s (ravel grid) -> descending s ->
    forall i target, (i < length s)%nat -> In target target_fractions ->
      clear_of target (cumulative_fraction s i).

(** An outcome that is not a finite value: an exception, an infinity or
    [nan]. *)
Definition never_finite (c : result float) : Prop :=
  match c with
  | Ok v => isfinite v = false
  | Raise _ => True
  end.

(** ** Further code of the notebooks *)


(** * Properties *)

(** ** Comparisons and arithmetic of the float model *)

Lemma Rltb_true (x y : R) : Rltb x y = true <-> x < y.
Proof. unfold Rltb. destruct (Rlt_dec x y); split; intros; try lra; discriminate. Qed.

Lemma Rltb_false (x y : R) : Rltb x y = false <-> y <= x.
Proof. unfold Rltb. destruct (Rlt_dec x y); split; intros; try lra; discriminate. Qed.

Lemma Rleb_true (x y : R) : Rleb x y = true <-> x <= y.
Proof. unfold Rleb. destruct (Rle_dec x y); split; intros; try lra; discriminate. Qed.

Lemma Rleb_false (x y : R) : Rleb x y = false <-> y < x.
Proof. unfold Rleb. destruct (Rle_dec x y); split; intros; try lra; discriminate. Qed.

(** Case analysis on every real comparison of the goal. *)
Ltac rcmp :=
  repeat match goal with
    | |- context [Rltb ?a ?b] =>
        let H := fresh "Hc" in
        destruct (Rltb a b) eqn:H;
        [apply Rltb_true in H | apply Rltb_false in H]
    | |- context [Rleb ?a ?b] =>
        let H := fresh "Hc" in
        destruct (Rleb a b) eqn:H;
        [apply Rleb_true in H | apply Rleb_false in H]
    end.

Lemma fadd_comm (a b : float) : fadd a b = fadd b a.
Proof. destruct a, b; simpl; try reflexivity. f_equal. lra. Qed.

Lemma fadd_assoc (a b c : float) : fadd (fadd a b) c = fadd a (fadd b c).
Proof. destruct a, b, c; simpl; try reflexivity. f_equal. lra. Qed.

Lemma fadd_0_l (a : float) : fadd (Fin 0) a = a.
Proof. destruct a; simpl; try reflexivity. f_equal. lra. Qed.

Lemma fadd_0_r (a : float) : fadd a (Fin 0) = a.
Proof. rewrite fadd_comm. apply fadd_0_l. Qed.

Lemma fadd_NaN_r (a : float) : fadd a NaN = NaN.
Proof. destruct a; reflexivity. Qed.

(** ** Sums *)

Lemma fold_fadd_acc (l : array) (a b : float) :
  fold_left fadd l (fadd a b) = fadd a (fold_left fadd l b).
Proof.
  revert b. induction l as [|x l IH]; intros b; simpl; [reflexivity|].
  rewrite fadd_assoc. apply IH.
Qed.

Lemma np_sum_cons (x : float) (l : array) :
  np_sum (x :: l) = fadd x (np_sum l).
Proof.
  unfold np_sum. cbn [fold_left]. rewrite fadd_0_l.
  rewrite <- (fadd_0_r x) at 1. apply fold_fadd_acc.
Qed.

Lemma np_sum_nil : np_sum [] = Fin 0.
Proof. reflexivity. Qed.

Lemma np_sum_Fin (rs : list R) : np_sum (map Fin rs) = Fin (Rsum rs).
Proof.
  induction rs as [|r rs IH]; [reflexivity|].
  simpl map. rewrite np_sum_cons, IH. reflexivity.
Qed.

Lemma np_sum_Permutation (l1 l2 : array) :
  Permutation l1 l2 -> np_sum l1 = np_sum l2.
Proof.
  induction 1 as [|x l l' _ IH|x y l|l l' l'' _ IH1 _ IH2].
  - reflexivity.
  - rewrite !np_sum_cons, IH. reflexivity.
  - rewrite !np_sum_cons, <- !fadd_assoc, (fadd_comm y x). reflexivity.
  - congruence.
Qed.

(** A finite sum has only finite summands. *)
Lemma np_sum_finite (l : array) (t : R) :
  np_sum l = Fin t -> exists rs, l = map Fin rs.
Proof.
  revert t. induction l as [|x l IH]; intros t H.
  - exists []. reflexivity.
  - rewrite np_sum_cons in H.
    destruct x as [r| | |]; try discriminate;
      try (destruct (np_sum l); discriminate).
    destruct (np_sum l) as [u| | |] eqn:E; try discriminate.
    destruct (IH u eq_refl) as [rs ->]. exists (r :: rs). reflexivity.
Qed.

(** One [nan] summand makes the sum [nan]. *)
Lemma np_sum_NaN (l : array) : In NaN l -> np_sum l = NaN.
Proof.
  induction l as [|x l IH]; intros H; [contradiction|].
  rewrite np_sum_cons. destruct H as [->|H]; [reflexivity|].
  rewrite (IH H). apply fadd_NaN_r.
Qed.

(** ** The log-likelihood *)

Lemma broadcast2_map {A : Type} (f : float -> float -> float)
    (g h : A -> float) (l : list A) :
  broadcast2 f (map g l) (map h l) = Ok (map (fun o => f (g o) (h o)) l).
Proof.
  unfold broadcast2. rewrite !length_map, Nat.eqb_refl. f_equal.
  induction l as [|o l IH]; simpl; congruence.
Qed.

(** On an observation set the three arrays have one length, and the
    likelihood is the scaled sum of the per-observation summands. *)
Lemma log_likelihood_obs (t0 t1 : float) (rest : array)
    (obs : list observation) :
  log_likelihood (t0 :: t1 :: rest) (xs obs) (ys obs) (sigmas obs)
  = Ok (fmul (Fin (- (1 / 2))) (np_sum (map (float_term t0 t1) obs))).
Proof.
  unfold log_likelihood, xs, ys, sigmas. cbn [getitem nth_error bind].
  rewrite !map_map, broadcast2_map. cbn [bind].
  rewrite !map_map, broadcast2_map. cbn [bind].
  rewrite broadcast2_map. reflexivity.
Qed.

Lemma float_term_nonzero (b m : R) (o : observation) :
  obs_sigma o <> 0 ->
  float_term (Fin b) (Fin m) o
  = Fin (ln (2 * PI * Rsqr (obs_sigma o))
         + Rsqr (obs_y o - (b + m * obs_x o)) / Rsqr (obs_sigma o)).
Proof.
  intros Hs. unfold float_term, fsq, fsub. cbn [fmul fadd fneg flog fdiv].
  assert (Hsq : 0 < obs_sigma o * obs_sigma o) by nra.
  pose proof PI_RGT_0 as Hpi.
  assert (Hn : 0 < 2 * PI * (obs_sigma o * obs_sigma o)) by nra.
  apply Rltb_true in Hsq, Hn. rewrite Hsq, Hn. cbn [orb fadd].
  unfold Rsqr, Rminus. reflexivity.
Qed.

Lemma float_term_zero (b m : R) (o : observation) :
  obs_sigma o = 0 -> float_term (Fin b) (Fin m) o = NaN.
Proof.
  intros Hs. unfold float_term, fsq, fsub. rewrite Hs.
  cbn [fmul fadd fneg flog fdiv].
  replace (2 * PI * (0 * 0)) with 0 by ring.
  replace (0 * 0) with 0 by ring.
  assert (Z0 : Rltb 0 0 = false) by (apply Rltb_false; lra).
  rewrite Z0. cbn [orb]. unfold signed_inf.
  set (r := obs_y o + - (b + m * obs_x o)).
  rcmp; cbn [fadd]; try reflexivity. exfalso. nra.
Qed.

Lemma Rsum_scal (c : R) (l : list R) :
  c * Rsum l = Rsum (map (Rmult c) l).
Proof.
  induction l as [|r l IH]; simpl; [lra|]. rewrite <- IH. lra.
Qed.

Lemma log_likelihood_all_nonzero (b m : R) (rest : array)
    (obs : list observation) :
  Forall (fun o => obs_sigma o <> 0) obs ->
  log_likelihood (Fin b :: Fin m :: rest) (xs obs) (ys obs) (sigmas obs)
  = Ok (Fin (Rsum (map (gauss_term b m) obs))).
Proof.
  intros H. rewrite log_likelihood_obs.
  assert (E : map (float_term (Fin b) (Fin m)) obs
              = map Fin (map (fun o =>
                  ln (2 * PI * Rsqr (obs_sigma o))
                  + Rsqr (obs_y o - (b + m * obs_x o)) / Rsqr (obs_sigma o)) obs)).
  { rewrite map_map. apply map_ext_in. intros o Ho.
    apply float_term_nonzero. rewrite Forall_forall in H. auto. }
  rewrite E, np_sum_Fin. cbn [fmul]. rewrite Rsum_scal, map_map.
  reflexivity.
Qed.

Lemma log_likelihood_some_zero (b m : R) (rest : array)
    (obs : list observation) :
  Exists (fun o => obs_sigma o = 0) obs ->
  log_likelihood (Fin b :: Fin m :: rest) (xs obs) (ys obs) (sigmas obs)
  = Ok NaN.
Proof.
  intros H. rewrite log_likelihood_obs.
  apply Exists_exists in H. destruct H as [o [Ho Hs]].
  rewrite np_sum_NaN; [reflexivity|].
  apply in_map_iff. exists o. split; [apply float_term_zero; exact Hs|exact Ho].
Qed.

Lemma sigma_zero_or_not (obs : list observation) :
  Forall (fun o => obs_sigma o <> 0) obs \/
  Exists (fun o => obs_sigma o = 0) obs.
Proof.
  induction obs as [|o obs [IH|IH]].
  - left. constructor.
  - destruct (Req_dec (obs_sigma o) 0) as [E|E].
    + right. left. exact E.
    + left. constructor; assumption.
  - right. right. exact IH.
Qed.

Lemma sequence_map_Ok {A B : Type} (f : A -> B) (l : list A) :
  sequence (map (fun a => Ok (f a)) l) = Ok (map f l).
Proof.
  induction l as [|a l IH]; [reflexivity|].
  cbn [map sequence bind]. rewrite IH. reflexivity.
Qed.

(** With no observation, the grid evaluation is the prior alone. *)
Lemma log_P_empty (prior : array -> result float)
    (slope_range intercept_range : array) :
  log_P prior (xs []) (ys []) (sigmas []) slope_range intercept_range
  = sequence (map (fun b =>
      sequence (map (fun m => prior [b; m]) slope_range)) intercept_range).
Proof.
  unfold log_P. f_equal.
  apply map_ext. intros b. f_equal. apply map_ext. intros m.
  rewrite log_likelihood_obs. cbn [map bind].
  rewrite np_sum_nil. cbn [fmul].
  destruct (prior [b; m]) as [lp|e]; cbn [bind]; [|reflexivity].
  replace (- (1 / 2) * 0) with 0 by lra. rewrite fadd_0_l. reflexivity.
Qed.


Lemma fsq_fabs (d : float) : fsq (fabs d) = fsq d.
Proof.
  destruct d; unfold fsq; cbn [fabs fmul]; try reflexivity.
  f_equal. fold (Rsqr (Rabs r)). fold (Rsqr r). symmetry. apply Rsqr_abs.
Qed.

(** Only the square of an uncertainty enters the likelihood. *)
Lemma log_likelihood_squares (f : float -> float) (theta x y dy : array) :
  (forall d, fsq (f d) = fsq d) ->
  log_likelihood theta x y (map f dy) = log_likelihood theta x y dy.
Proof.
  intros Hf. unfold log_likelihood. cbv zeta.
  assert (E1 : map fsq (map f dy) = map fsq dy)
    by (rewrite map_map; apply map_ext; intros d; apply Hf).
  assert (E2 : map (fun d => flog (fmul (fmul (Fin 2) (Fin PI)) (fsq d)))
                 (map f dy)
               = map (fun d => flog (fmul (fmul (Fin 2) (Fin PI)) (fsq d)))
                   dy)
    by (rewrite map_map; apply map_ext; intros d; rewrite Hf; reflexivity).
  rewrite E1, E2. reflexivity.
Qed.

(** C5, as the code has it.  An observation set with an uncertainty that
    is zero or negative raises nothing: [log_likelihood] returns normally,
    [nan] when some uncertainty is zero, and in every case what it
    returns when each uncertainty is replaced by its absolute value (only
    [sigma^2] enters it). *)
Theorem log_likelihood_nonpositive_sigma_returns :
  forall (obs : list observation) (b m : R) (rest : array),
    Exists (fun o => obs_sigma o <= 0) obs ->
    ~ raises (log_likelihood (Fin b :: Fin m :: rest)
                (xs obs) (ys obs) (sigmas obs))
    /\ (Exists (fun o => obs_sigma o = 0) obs ->
        log_likelihood (Fin b :: Fin m :: rest) (xs obs) (ys obs) (sigmas obs)
        = Ok NaN)
    /\ log_likelihood (Fin b :: Fin m :: rest) (xs obs) (ys obs)
         (map fabs (sigmas obs))
       = log_likelihood (Fin b :: Fin m :: rest) (xs obs) (ys obs)
           (sigmas obs).
Proof.
  intros obs b m rest _. split; [|split].
  - rewrite log_likelihood_obs. intros [e He]. discriminate.
  - apply log_likelihood_some_zero.
  - apply log_likelihood_squares. exact fsq_fabs.
Qed.

Lemma log_likelihood_nonpositive_sigma_witness :
  let obs := [{| obs_x := 1; obs_y := 2; obs_sigma := -1 |}] in
  ~ raises (log_likelihood [Fin 0; Fin 0] (xs obs) (ys obs) (sigmas obs))
  /\ log_likelihood [Fin 0; Fin 0] (xs obs) (ys obs) (map fabs (sigmas obs))
     = log_likelihood [Fin 0; Fin 0] (xs obs) (ys obs) (sigmas obs).
Proof.
  cbv zeta.
  destruct (log_likelihood_nonpositive_sigma_returns
              [{| obs_x := 1; obs_y := 2; obs_sigma := -1 |}] 0 0 [])
    as [H1 [_ H3]].
  - left. simpl. lra.
  - split; [exact H1|exact H3].
Defined.

(** C5, counterexample: one observation with uncertainty 0 gives [nan],
    and no error. *)
Lemma log_likelihood_zero_sigma_no_error :
  let obs := [{| obs_x := 1; obs_y := 2; obs_sigma := 0 |}] in
  Exists (fun o => obs_sigma o <= 0) obs /\
  log_likelihood [Fin 0; Fin 0] (xs obs) (ys obs) (sigmas obs) = Ok NaN /\
  ~ raises (log_likelihood [Fin 0; Fin 0] (xs obs) (ys obs) (sigmas obs)).
Proof.
  cbv zeta.
  assert (E : log_likelihood [Fin 0; Fin 0]
                (xs [{| obs_x := 1; obs_y := 2; obs_sigma := 0 |}])
                (ys [{| obs_x := 1; obs_y := 2; obs_sigma := 0 |}])
                (sigmas [{| obs_x := 1; obs_y := 2; obs_sigma := 0 |}])
              = Ok NaN).
  { apply log_likelihood_some_zero. left. reflexivity. }
  split; [left; simpl; lra|]. split; [exact E|].
  intros [e He]. congruence.
Qed.

(** ** The priors *)

Lemma in_bound_iff (t : float) :
  flt (fabs t) (Fin 1000) = true <-> within_bound t.
Proof.
  unfold within_bound. destruct t as [r| | |]; cbn [fabs flt].
  - rewrite Rltb_true. split.
    + intros H. exists r. split; [reflexivity|exact H].
    + intros [r' [E H]]. injection E as ->. exact H.
  - split; [discriminate|]. intros [r [E _]]. discriminate.
  - split; [discriminate|]. intros [r [E _]]. discriminate.
  - split; [discriminate|]. intros [r [E _]]. discriminate.
Qed.

Lemma all_in_bound_iff (theta : array) :
  np_all (map (fun t => flt (fabs t) (Fin 1000)) theta) = true
  <-> Forall within_bound theta.
Proof.
  unfold np_all. rewrite forallb_forall, Forall_forall. split.
  - intros H t Ht. apply in_bound_iff. apply H.
    apply in_map_iff. exists t. split; [reflexivity|exact Ht].
  - intros H b Hb. apply in_map_iff in Hb. destruct Hb as [t [<- Ht]].
    apply in_bound_iff. apply H. exact Ht.
Qed.

Lemma flat_prior_cases (theta : array) :
  (Forall within_bound theta /\ log_flat_prior theta = Fin 0) \/
  (~ Forall within_bound theta /\ log_flat_prior theta = NInf).
Proof.
  unfold log_flat_prior.
  destruct (np_all (map (fun t => flt (fabs t) (Fin 1000)) theta)) eqn:E.
  - left. split; [apply all_in_bound_iff; exact E|reflexivity].
  - right. split; [|reflexivity].
    intros H. apply all_in_bound_iff in H. congruence.
Qed.

(** C6. [log_flat_prior] (and the identical [log_prior] of the MCMC
    notebook) is a total function returning 0 when every component of
    [theta] is within the bound, in absolute value strictly below 1000,
    and [-inf] otherwise; [[999, 5]] gives 0 and [[1001, 5]] gives
    [-inf]. *)
Theorem log_flat_prior_box :
  (forall theta : array,
     ((Forall within_bound theta /\ log_flat_prior theta = Fin 0) \/
      (~ Forall within_bound theta /\ log_flat_prior theta = NInf))
     /\ log_prior theta = log_flat_prior theta)
  /\ log_flat_prior [Fin 999; Fin 5] = Fin 0
  /\ log_flat_prior [Fin 1001; Fin 5] = NInf.
Proof.
  split; [|split].
  - intros theta. split; [apply flat_prior_cases|reflexivity].
  - destruct (flat_prior_cases [Fin 999; Fin 5]) as [[_ E]|[H _]];
      [exact E|].
    exfalso. apply H.
    repeat constructor.
    + exists 999. split; [reflexivity|]. rewrite Rabs_pos_eq; lra.
    + exists 5. split; [reflexivity|]. rewrite Rabs_pos_eq; lra.
  - destruct (flat_prior_cases [Fin 1001; Fin 5]) as [[H _]|[_ E]];
      [|exact E].
    exfalso. inversion H as [|t l [r [Er Hr]] _]; subst.
    injection Er as <-. rewrite Rabs_pos_eq in Hr; lra.
Qed.

(** The bound is strict: an intercept of exactly 1000 is rejected. *)
Example log_flat_prior_at_bound : log_flat_prior [Fin 1000; Fin 5] = NInf.
Proof.
  destruct (flat_prior_cases [Fin 1000; Fin 5]) as [[H _]|[_ E]];
    [|exact E].
  exfalso. inversion H as [|t l [r [Er Hr]] _]; subst.
  injection Er as <-. rewrite Rabs_pos_eq in Hr; lra.
Qed.

Lemma symmetric_prior_inside (b s : R) :
  Rabs b < 1000 ->
  log_symmetric_prior [Fin b; Fin s]
  = Ok (Fin (- (3 / 2) * ln (1 + s ^ 2))).
Proof.
  intros Hb. unfold log_symmetric_prior.
  cbn [getitem nth_error bind fabs flt].
  apply Rltb_true in Hb. rewrite Hb. cbn [getitem nth_error bind].
  unfold fsq. cbn [fmul fadd flog].
  assert (Hp : 0 < 1 + s * s) by nra.
  apply Rltb_true in Hp. rewrite Hp. cbn [fmul].
  replace (s ^ 2) with (s * s) by ring. reflexivity.
Qed.

Lemma symmetric_prior_outside (b : float) (m : float) :
  ~ within_bound b -> log_symmetric_prior [b; m] = Ok NInf.
Proof.
  intros Hb. unfold log_symmetric_prior. cbn [getitem nth_error bind].
  destruct (flt (fabs b) (Fin 1000)) eqn:E; [|reflexivity].
  apply in_bound_iff in E. contradiction.
Qed.


(** ** The data generators *)

Lemma zip_with_length (f : float -> float -> float) (a b : array) :
  length a = length b -> length (zip_with f a b) = length a.
Proof.
  revert b. induction a as [|x a IH]; intros [|y b] H; simpl in *;
    try reflexivity; try discriminate.
  f_equal. apply IH. congruence.
Qed.

Lemma broadcast2_same_length (f : float -> float -> float) (a b : array) :
  length a = length b -> broadcast2 f a b = Ok (zip_with f a b).
Proof.
  intros H. unfold broadcast2. rewrite H, Nat.eqb_refl. reflexivity.
Qed.

Section GeneratorProperties.

Context {RNG : RandomState}.

Lemma draws_length (draw : rng_state -> R * rng_state) (n : nat)
    (s : rng_state) :
  length (fst (draws draw n s)) = n.
Proof.
  revert s. induction n as [|n IH]; intros s; [reflexivity|].
  cbn [draws]. destruct (draw s) as [v s1].
  specialize (IH s1). destruct (draws draw n s1) as [vs s2].
  simpl in *. congruence.
Qed.

Lemma RandomState_init_valid (rseed : Z) :
  (0 <= rseed < 2 ^ 32)%Z -> RandomState_init rseed = Ok (rng_seed rseed).
Proof.
  intros [H1 H2]. unfold RandomState_init.
  apply Z.leb_le in H1. apply Z.ltb_lt in H2. rewrite H1, H2. reflexivity.
Qed.

(** [make_data] returns three sequences of [N] elements each. *)
Lemma make_data_length (intercept slope dy : float) (N rseed : Z) :
  (0 <= N)%Z -> (0 <= rseed < 2 ^ 32)%Z ->
  exists x y s : array,
    make_data intercept slope N dy rseed = Ok (x, y, s) /\
    length x = Z.to_nat N /\ length y = Z.to_nat N /\
    length s = Z.to_nat N.
Proof.
  intros HN Hseed. unfold make_data, rand_rand, rand_randn.
  rewrite (RandomState_init_valid rseed Hseed). cbn [bind].
  assert (E : (N <? 0)%Z = false) by (apply Z.ltb_ge; exact HN).
  rewrite E. cbn [bind].
  set (u := draws random_sample (Z.to_nat N) (rng_seed rseed)).
  set (g := draws standard_normal (Z.to_nat N) (snd u)).
  assert (Lu : length (fst u) = Z.to_nat N) by apply draws_length.
  assert (Lg : length (fst g) = Z.to_nat N) by apply draws_length.
  rewrite broadcast2_same_length by (rewrite !length_map; congruence).
  cbn [bind]. do 3 eexists. split; [reflexivity|].
  unfold ones_like.
  rewrite zip_with_length by (rewrite !length_map; congruence).
  rewrite !length_map. auto.
Qed.

(** [make_data_scatter] draws 20 points whatever [N] is. *)
Lemma make_data_scatter_length (intercept slope scatter dy : float)
    (N rseed : Z) :
  (0 <= rseed < 2 ^ 32)%Z ->
  exists x y s : array,
    make_data_scatter intercept slope scatter N dy rseed = Ok (x, y, s) /\
    length x = 20%nat /\ length y = 20%nat /\ length s = 20%nat.
Proof.
  intros Hseed. unfold make_data_scatter, rand_rand, rand_randn.
  rewrite (RandomState_init_valid rseed Hseed). cbn [bind].
  change (20 <? 0)%Z with false. cbn [bind].
  set (u := draws random_sample (Z.to_nat 20) (rng_seed rseed)).
  set (g := draws standard_normal (Z.to_nat 20) (snd u)).
  assert (Lu : length (fst u) = Z.to_nat 20) by apply draws_length.
  assert (Lg : length (fst g) = Z.to_nat 20) by apply draws_length.
  change (Z.to_nat 20) with 20%nat in Lu, Lg.
  rewrite broadcast2_same_length by (rewrite !length_map; congruence).
  cbn [bind]. do 3 eexists. split; [reflexivity|].
  unfold ones_like.
  rewrite zip_with_length by (rewrite !length_map; congruence).
  rewrite !length_map. auto.
Qed.

End GeneratorProperties.

(** With the stand-in generator and [N = 2], [make_data] returns two
    points, [make_data_scatter] twenty. *)
Example make_data_two_points :
  exists x y s : array,
    make_data (Fin 25) (Fin (1 / 2)) 2 (Fin 5) 42 = Ok (x, y, s) /\
    length x = 2%nat /\ length y = 2%nat /\ length s = 2%nat.
Proof.
  apply (make_data_length (Fin 25) (Fin (1 / 2)) (Fin 5) 2 42); lia.
Qed.

Example make_data_negative_N :
  make_data (Fin 25) (Fin (1 / 2)) (-1) (Fin 5) 42 = Raise ValueError.
Proof. reflexivity. Qed.

(** C3, where the code departs from it.  Asked for [N = 3] points,
    [make_data] returns three sequences of length 3, while
    [make_data_scatter] returns three sequences of length 20: its body
    draws [rand(20)] and [randn(20)] and never reads [N]. *)
Theorem make_data_scatter_ignores_N :
  forall (RNG : RandomState) (intercept slope scatter dy : float),
    (exists x y s : array,
       make_data intercept slope 3 dy 42 = Ok (x, y, s) /\
       length x = 3%nat /\ length y = 3%nat /\ length s = 3%nat)
    /\
    (exists x y s : array,
       make_data_scatter intercept slope scatter 3 dy 42 = Ok (x, y, s) /\
       length x = 20%nat /\ length y = 20%nat /\ length s = 20%nat).
Proof.
  intros RNG intercept slope scatter dy. split.
  - apply (make_data_length intercept slope dy 3 42); lia.
  - apply make_data_scatter_length. lia.
Qed.

(** ** Normalisation of the log-posterior grid *)

Lemma fle_trans (a b c : float) :
  fle a b = true -> fle b c = true -> fle a c = true.
Proof.
  destruct a, b, c; cbn [fle]; try discriminate; try reflexivity.
  rewrite !Rleb_true. lra.
Qed.

Lemma fle_refl_log_density (v : float) : log_density v -> fle v v = true.
Proof.
  intros [->|[r ->]]; cbn [fle]; [reflexivity|]. apply Rleb_true. lra.
Qed.

Lemma fmax_log_density (a b : float) :
  log_density a -> log_density b ->
  (fmax a b = a \/ fmax a b = b) /\
  fle a (fmax a b) = true /\ fle b (fmax a b) = true.
Proof.
  intros [->|[x ->]] [->|[y ->]]; unfold fmax; cbn [fle isnan orb];
    try (repeat split; auto; apply Rleb_true; lra).
  destruct (Rleb y x) eqn:E; cbn [orb fle].
  - apply Rleb_true in E. repeat split; auto; apply Rleb_true; lra.
  - apply Rleb_false in E. repeat split; auto; apply Rleb_true; lra.
Qed.

(** The running maximum of log-densities is one of them and bounds all
    of them. *)
Lemma fold_fmax_log_density (l : array) (x : float) :
  Forall log_density (x :: l) ->
  In (fold_left fmax l x) (x :: l) /\
  Forall (fun v => fle v (fold_left fmax l x) = true) (x :: l).
Proof.
  revert x. induction l as [|y l IH]; intros x H.
  - cbn [fold_left]. split; [left; reflexivity|].
    constructor; [|constructor].
    apply fle_refl_log_density. inversion H; assumption.
  - cbn [fold_left].
    inversion H as [|? ? Hx Hyl]; subst.
    inversion Hyl as [|? ? Hy Hl]; subst.
    destruct (fmax_log_density x y Hx Hy) as [Hsel [Hxm Hym]].
    assert (Hm : log_density (fmax x y))
      by (destruct Hsel as [-> | ->]; assumption).
    destruct (IH (fmax x y) (Forall_cons _ Hm Hl)) as [Hin Hall].
    inversion Hall as [|? ? Htop Hrest]; subst.
    split.
    + destruct Hin as [E|Hin].
      * rewrite <- E. destruct Hsel as [-> | ->];
          [left; reflexivity|right; left; reflexivity].
      * right. right. exact Hin.
    + constructor; [eapply fle_trans; eassumption|].
      constructor; [eapply fle_trans; eassumption|exact Hrest].
Qed.

Lemma np_max_log_density (l : array) :
  l <> [] -> Forall log_density l ->
  exists top, np_max l = Ok top /\ In top l /\
              Forall (fun v => fle v top = true) l.
Proof.
  intros Hne H. destruct l as [|x l]; [congruence|].
  exists (fold_left fmax l x). split; [reflexivity|].
  apply fold_fmax_log_density. exact H.
Qed.

Lemma density_is_log_density (v : float) : density v -> log_density v.
Proof. intros [r [-> _]]. right. exists r. reflexivity. Qed.

Lemma ravel_map (f : float -> float) (g : array2) :
  ravel (map (map f) g) = map f (ravel g).
Proof. unfold ravel. rewrite concat_map. reflexivity. Qed.

(** Shifted by a finite maximum and exponentiated, a log-density is a
    density not above 1. *)
Lemma fexp_shift (v : float) (M : R) :
  log_density v -> fle v (Fin M) = true ->
  exists r, fexp (fsub v (Fin M)) = Fin r /\ 0 <= r <= 1.
Proof.
  intros [->|[x ->]] Hle; unfold fsub; cbn [fneg fadd fexp].
  - exists 0. split; [reflexivity|lra].
  - cbn [fle] in Hle. apply Rleb_true in Hle.
    exists (exp (x + - M)). split; [reflexivity|].
    split; [left; apply exp_pos|].
    rewrite <- exp_0. destruct (Req_dec (x + - M) 0) as [E|E].
    + rewrite E. lra.
    + left. apply exp_increasing. lra.
Qed.

(** The normalisation step on a grid of log-densities with a finite
    entry: the result has maximum exactly 1 and holds densities only. *)
Lemma normalized_log_density (logP : array2) :
  Forall log_density (ravel logP) ->
  Exists (fun v => isfinite v = true) (ravel logP) ->
  exists P, normalized logP = Ok P /\
            np_max (ravel P) = Ok (Fin 1) /\
            Forall density (ravel P).
Proof.
  intros Hld Hfin.
  assert (Hne : ravel logP <> []) by (intros E; rewrite E in Hfin; inversion Hfin).
  destruct (np_max_log_density _ Hne Hld) as [top [Emax [Hin Hub]]].
  assert (Htop : exists M, top = Fin M).
  { apply Exists_exists in Hfin. destruct Hfin as [v [Hv Hf]].
    rewrite Forall_forall in Hub. specialize (Hub v Hv).
    destruct v; try discriminate. destruct top; try discriminate.
    - eexists; reflexivity.
    - rewrite Forall_forall in Hld. destruct (Hld _ Hin) as [E|[r' E]];
        discriminate. }
  destruct Htop as [M ->].
  unfold normalized. rewrite Emax. cbn [bind].
  eexists. split; [reflexivity|].
  rewrite ravel_map.
  set (f := fun v => fexp (fsub v (Fin M))).
  assert (Hall : Forall (fun v => exists r, v = Fin r /\ 0 <= r <= 1)
                   (map f (ravel logP))).
  { rewrite Forall_forall in *. intros w Hw.
    apply in_map_iff in Hw. destruct Hw as [v [<- Hv]].
    apply fexp_shift; auto. }
  assert (Hone : In (Fin 1) (map f (ravel logP))).
  { apply in_map_iff. exists (Fin M). split; [|exact Hin].
    unfold f, fsub. cbn [fneg fadd fexp].
    replace (M + - M) with 0 by lra. rewrite exp_0. reflexivity. }
  split.
  - assert (Hne' : map f (ravel logP) <> [])
      by (intros E; rewrite E in Hone; contradiction).
    assert (Hld' : Forall log_density (map f (ravel logP))).
    { eapply Forall_impl; [|exact Hall]. cbv beta.
      intros v [r [-> _]]. right. exists r. reflexivity. }
    destruct (np_max_log_density _ Hne' Hld') as [top' [E' [Hin' Hub']]].
    rewrite E'. f_equal.
    rewrite Forall_forall in Hall, Hub'.
    destruct (Hall _ Hin') as [r [-> Hr]].
    specialize (Hub' _ Hone). cbn [fle] in Hub'.
    apply Rleb_true in Hub'. f_equal. lra.
  - eapply Forall_impl; [|exact Hall]. cbv beta.
    intros v [r [-> Hr]]. exists r. split; [reflexivity|lra].
Qed.

(** Where every entry is [-inf], the maximum is [-inf] and the
    normalisation returns a grid of [nan], without an error. *)
Lemma fold_fmax_NInf (l : array) :
  Forall (eq NInf) l -> fold_left fmax l NInf = NInf.
Proof.
  induction 1 as [|x l <- _ IH]; [reflexivity|exact IH].
Qed.

Lemma normalized_all_rejected (logP : array2) :
  ravel logP <> [] -> Forall (eq NInf) (ravel logP) ->
  exists P, normalized logP = Ok P /\ ravel P <> [] /\
            Forall (eq NaN) (ravel P).
Proof.
  intros Hne Hall. unfold normalized.
  destruct (ravel logP) as [|x l] eqn:E; [congruence|].
  inversion Hall as [|? ? Hx Hl]; subst.
  cbn [np_max bind]. rewrite (fold_fmax_NInf l Hl).
  eexists. split; [reflexivity|].
  rewrite ravel_map, E. split; [discriminate|].
  rewrite Forall_forall in *.
  intros w Hw. apply in_map_iff in Hw. destruct Hw as [v [<- Hv]].
  rewrite <- (Hall v Hv). reflexivity.
Qed.

(** ** The grid of [plot_results] *)

Lemma linspace_Fin (a b : R) :
  linspace (Fin a) (Fin b)
  = map Fin (map (fun i => INR i * ((b + - a) / INR 49) + a) (seq 0 49)
             ++ [b]).
Proof.
  unfold linspace, linspace_num.
  change (50 - 1)%nat with 49%nat.
  unfold fsub. cbn [fneg fadd fdiv].
  assert (H49 : 0 < INR 49) by (apply lt_0_INR; lia).
  apply Rltb_true in H49. rewrite H49. cbn [orb].
  rewrite map_app, map_map. reflexivity.
Qed.

Lemma linspace_finite (a b : R) :
  Forall (fun v => exists r, v = Fin r) (linspace (Fin a) (Fin b)).
Proof.
  rewrite linspace_Fin. apply Forall_forall. intros v Hv.
  apply in_map_iff in Hv. destruct Hv as [r [<- _]]. exists r. reflexivity.
Qed.

Lemma linspace_stop (a b : float) : In b (linspace a b).
Proof. unfold linspace. apply in_or_app. right. left. reflexivity. Qed.

(** From [a <= b] every point of the range is at least [a]. *)
Lemma linspace_lower (a b : R) :
  a <= b ->
  Forall (fun v => exists r, v = Fin r /\ a <= r) (linspace (Fin a) (Fin b)).
Proof.
  intros Hab. rewrite linspace_Fin. apply Forall_forall. intros v Hv.
  apply in_map_iff in Hv. destruct Hv as [r [<- Hr]].
  exists r. split; [reflexivity|].
  apply in_app_or in Hr. destruct Hr as [Hr|[<-|[]]]; [|exact Hab].
  apply in_map_iff in Hr. destruct Hr as [i [<- _]].
  assert (H49 : 0 < INR 49) by (apply lt_0_INR; lia).
  assert (Hi : 0 <= INR i) by apply pos_INR.
  assert (Hs : 0 <= (b + - a) / INR 49).
  { apply Rmult_le_pos; [lra|]. left. apply Rinv_0_lt_compat. exact H49. }
  nra.
Qed.

Lemma sequence_Ok_inv {A : Type} (cs : list (result A)) (r : list A) :
  sequence cs = Ok r -> Forall2 (fun c a => c = Ok a) cs r.
Proof.
  revert r. induction cs as [|c cs IH]; intros r H.
  - injection H as <-. constructor.
  - cbn [sequence] in H. destruct c as [a|e]; [|discriminate].
    cbn [bind] in H. destruct (sequence cs) as [l|e]; [|discriminate].
    cbn [bind] in H. injection H as <-.
    constructor; [reflexivity|apply IH; reflexivity].
Qed.

Lemma Forall2_map_l_in {A B C : Type} (P : B -> C -> Prop) (f : A -> B)
    (l : list A) (r : list C) (y : C) :
  Forall2 P (map f l) r -> In y r -> exists x, In x l /\ P (f x) y.
Proof.
  revert r. induction l as [|a l IH]; intros r H Hy; inversion H; subst.
  - contradiction.
  - destruct Hy as [<-|Hy].
    + exists a. split; [left; reflexivity|assumption].
    + destruct (IH _ H4 Hy) as [x [Hx Px]].
      exists x. split; [right; exact Hx|exact Px].
Qed.

(** Every cell of a computed grid is the likelihood plus the prior at
    one point of the two ranges. *)
Lemma log_P_cells (prior : array -> result float) (x y dy : array)
    (slope_range intercept_range : array) (logP : array2) (v : float) :
  log_P prior x y dy slope_range intercept_range = Ok logP ->
  In v (ravel logP) ->
  exists b m ll lp,
    In b intercept_range /\ In m slope_range /\
    log_likelihood [b; m] x y dy = Ok ll /\ prior [b; m] = Ok lp /\
    v = fadd ll lp.
Proof.
  intros H Hv. unfold log_P in H. apply sequence_Ok_inv in H.
  unfold ravel in Hv. apply in_concat in Hv. destruct Hv as [row [Hrow Hv]].
  destruct (Forall2_map_l_in _ _ _ _ _ H Hrow) as [b [Hb Eb]].
  apply sequence_Ok_inv in Eb.
  destruct (Forall2_map_l_in _ _ _ _ _ Eb Hv) as [m [Hm Em]].
  cbv beta in Em.
  destruct (log_likelihood [b; m] x y dy) as [ll|e] eqn:Ell;
    [|discriminate].
  cbn [bind] in Em.
  destruct (prior [b; m]) as [lp|e] eqn:Elp; [|discriminate].
  cbn [bind] in Em. injection Em as <-.
  exists b, m, ll, lp. repeat split; auto.
Qed.

Lemma log_P1_empty (slope_range intercept_range : array) :
  log_P1 (xs []) (ys []) (sigmas []) slope_range intercept_range
  = Ok (map (fun b => map (fun m => log_flat_prior [b; m]) slope_range)
            intercept_range).
Proof.
  unfold log_P1. rewrite log_P_empty.
  rewrite <- sequence_map_Ok. f_equal. apply map_ext. intros b.
  apply sequence_map_Ok.
Qed.

(** On finite data and finite ranges, a grid with one finite cell has
    log-densities in all its cells. *)
Lemma log_P_log_density (prior : array -> result float)
    (obs : list observation) (a1 b1 a2 b2 : R) (logP : array2) :
  (forall b m lp, prior [Fin b; Fin m] = Ok lp -> log_density lp) ->
  log_P prior (xs obs) (ys obs) (sigmas obs)
    (linspace (Fin a1) (Fin b1)) (linspace (Fin a2) (Fin b2)) = Ok logP ->
  Exists (fun v => isfinite v = true) (ravel logP) ->
  Forall log_density (ravel logP).
Proof.
  intros Hprior H Hfin.
  assert (Hcell : forall v, In v (ravel logP) ->
            exists b m ll lp,
              log_likelihood [Fin b; Fin m] (xs obs) (ys obs) (sigmas obs)
              = Ok ll /\ log_density lp /\ v = fadd ll lp).
  { intros v Hv.
    destruct (log_P_cells _ _ _ _ _ _ _ _ H Hv)
      as [b [m [ll [lp [Hb [Hm [Ell [Elp ->]]]]]]]].
    pose proof (linspace_finite a2 b2) as F2.
    pose proof (linspace_finite a1 b1) as F1.
    rewrite Forall_forall in F1, F2.
    destruct (F2 _ Hb) as [b' ->]. destruct (F1 _ Hm) as [m' ->].
    exists b', m', ll, lp. repeat split; eauto. }
  destruct (sigma_zero_or_not obs) as [Hnz|Hz].
  - apply Forall_forall. intros v Hv.
    destruct (Hcell v Hv) as [b [m [ll [lp [Ell [Hlp ->]]]]]].
    rewrite (log_likelihood_all_nonzero b m [] obs Hnz) in Ell.
    injection Ell as <-.
    destruct Hlp as [->|[r ->]]; [left; reflexivity|].
    right. eexists. reflexivity.
  - exfalso. apply Exists_exists in Hfin. destruct Hfin as [v [Hv Hf]].
    destruct (Hcell v Hv) as [b [m [ll [lp [Ell [Hlp ->]]]]]].
    rewrite (log_likelihood_some_zero b m [] obs Hz) in Ell.
    injection Ell as <-. discriminate.
Qed.

Lemma flat_prior_log_density (theta : array) :
  log_density (log_flat_prior theta).
Proof.
  destruct (flat_prior_cases theta) as [[_ ->]|[_ ->]];
    [right; exists 0; reflexivity|left; reflexivity].
Qed.

Lemma symmetric_prior_log_density (b m : R) (lp : float) :
  log_symmetric_prior [Fin b; Fin m] = Ok lp -> log_density lp.
Proof.
  destruct (Rlt_dec (Rabs b) 1000) as [Hb|Hb].
  - rewrite (symmetric_prior_inside b m Hb). intros E. injection E as <-.
    right. eexists. reflexivity.
  - rewrite symmetric_prior_outside.
    + intros E. injection E as <-. left. reflexivity.
    + intros [r [E Hr]]. injection E as <-. contradiction.
Qed.



(** ** Bisection *)

Lemma midpoint_bounds (lo hi : nat) :
  (lo < hi)%nat -> (lo <= midpoint lo hi < hi)%nat.
Proof.
  intros H. unfold midpoint.
  assert (((hi - lo) / 2 < hi - lo)%nat) by (apply Nat.div_lt; lia).
  lia.
Qed.

(** Where the elements below [v] form a prefix of [a[:hi]], bisection
    between [lo] and [hi] stops at the end of that prefix. *)
Lemma bisect_left_prefix (a : array) (v : float) (lo hi : nat) :
  (lo <= hi)%nat ->
  (forall i j, (i <= j < hi)%nat ->
     np_less (nth j a NaN) v = true -> np_less (nth i a NaN) v = true) ->
  (lo <= bisect_left a v lo hi <= hi)%nat /\
  (forall i, (lo <= i < bisect_left a v lo hi)%nat ->
     np_less (nth i a NaN) v = true) /\
  ((bisect_left a v lo hi < hi)%nat ->
     np_less (nth (bisect_left a v lo hi) a NaN) v = false).
Proof.
  funelim (bisect_left a v lo hi); intros Hle Hmono.
  - pose proof (midpoint_bounds lo hi l) as Hmid.
    destruct (np_less (nth (midpoint lo hi) a NaN) v) eqn:E.
    + destruct (H ltac:(lia) Hmono) as [Hb [Hlow Hstop]].
      split; [lia|]. split; [|exact Hstop].
      intros i Hi.
      destruct (le_lt_dec i (midpoint lo hi)) as [Hi'|Hi'].
      * apply (Hmono i (midpoint lo hi)); [lia|exact E].
      * apply Hlow. lia.
    + assert (Hmono' : forall i j, (i <= j < midpoint lo hi)%nat ->
                np_less (nth j a NaN) v = true ->
                np_less (nth i a NaN) v = true)
        by (intros i j Hij; apply Hmono; lia).
      destruct (H0 ltac:(lia) Hmono') as [Hb [Hlow Hstop]].
      split; [lia|]. split; [exact Hlow|].
      intros _.
      destruct (Nat.eq_dec (bisect_left a v lo (midpoint lo hi))
                  (midpoint lo hi)) as [Er|Er].
      * rewrite Er. exact E.
      * apply Hstop. lia.
  - split; [lia|]. split; [intros i Hi; lia|intros Hlt; lia].
Qed.

(** ** Sorting *)

Lemma insert_sorted_Permutation (x : float) (a : array) :
  Permutation (insert_sorted x a) (x :: a).
Proof.
  induction a as [|y a IH]; cbn [insert_sorted]; [reflexivity|].
  destruct (np_less y x); [|reflexivity].
  rewrite IH. apply perm_swap.
Qed.

Lemma np_sort_Permutation (a : array) : Permutation (np_sort a) a.
Proof.
  induction a as [|x a IH]; cbn [np_sort]; [reflexivity|].
  rewrite insert_sorted_Permutation. constructor. exact IH.
Qed.

Lemma np_less_Fin (x y : R) : np_less (Fin x) (Fin y) = Rltb x y.
Proof. unfold np_less. cbn [flt isnan andb]. apply orb_false_r. Qed.

Lemma insert_sorted_ascending (x : R) (a : array) :
  Forall finite a -> ascending a -> ascending (insert_sorted (Fin x) a).
Proof.
  unfold ascending. induction a as [|y a IH]; intros Hf Hs.
  - cbn [insert_sorted]. repeat constructor.
  - cbn [insert_sorted].
    inversion Hf as [|? ? [r ->] Hf']; subst.
    inversion Hs as [|? ? Hs' Hall]; subst.
    rewrite np_less_Fin. destruct (Rltb r x) eqn:E.
    + apply Rltb_true in E. constructor; [apply IH; assumption|].
      eapply Permutation_Forall;
        [symmetry; apply insert_sorted_Permutation|].
      constructor; [|exact Hall].
      cbn [fle]. apply Rleb_true. lra.
    + apply Rltb_false in E. constructor; [exact Hs|].
      constructor; [cbn [fle]; apply Rleb_true; exact E|].
      eapply Forall_impl; [|exact Hall]. cbv beta. intros v Hv.
      eapply fle_trans; [|exact Hv]. cbn [fle]. apply Rleb_true. exact E.
Qed.

Lemma np_sort_ascending (a : array) :
  Forall finite a -> ascending (np_sort a).
Proof.
  induction a as [|x a IH]; intros Hf; cbn [np_sort].
  - constructor.
  - inversion Hf as [|? ? [r ->] Hf']; subst.
    apply insert_sorted_ascending; [|apply IH; exact Hf'].
    eapply Permutation_Forall; [symmetry; apply np_sort_Permutation|].
    exact Hf'.
Qed.

Lemma StronglySorted_snoc {A : Type} (Rel : A -> A -> Prop) (l : list A)
    (x : A) :
  StronglySorted Rel l -> Forall (fun y => Rel y x) l ->
  StronglySorted Rel (l ++ [x]).
Proof.
  induction 1 as [|y l Hs IH Hall]; intros Hx; cbn [app].
  - repeat constructor.
  - inversion Hx; subst. constructor; [apply IH; assumption|].
    apply Forall_app. split; [exact Hall|]. repeat constructor. assumption.
Qed.

Lemma ascending_rev (s : array) : ascending s -> descending (rev s).
Proof.
  unfold ascending, descending.
  induction 1 as [|x l Hs IH Hall]; cbn [rev]; [constructor|].
  apply StronglySorted_snoc; [exact IH|].
  apply Forall_rev. exact Hall.
Qed.

(** The array [sorted_] of [contour_levels]. *)
Lemma sorted_descending (a : array) :
  Forall finite a ->
  Permutation (rev (np_sort a)) a /\ descending (rev (np_sort a)).
Proof.
  intros Hf. split.
  - rewrite <- Permutation_rev. apply np_sort_Permutation.
  - apply ascending_rev, np_sort_ascending, Hf.
Qed.

Lemma finite_map_Fin (a : array) :
  Forall finite a -> exists rs, a = map Fin rs.
Proof.
  induction 1 as [|v a [r ->] _ [rs ->]].
  - exists []. reflexivity.
  - exists (r :: rs). reflexivity.
Qed.

Lemma map_Fin_finite (rs : list R) : Forall finite (map Fin rs).
Proof.
  apply Forall_forall. intros v Hv. apply in_map_iff in Hv.
  destruct Hv as [r [<- _]]. exists r. reflexivity.
Qed.

(** ** Running sums *)

Lemma cumsum_from_length (acc : float) (a : array) :
  length (cumsum_from acc a) = length a.
Proof.
  revert acc. induction a as [|x a IH]; intros acc; cbn [cumsum_from length];
    [reflexivity|]. rewrite IH. reflexivity.
Qed.

Lemma np_cumsum_length (a : array) : length (np_cumsum a) = length a.
Proof.
  destruct a as [|x a]; cbn [np_cumsum length]; [reflexivity|].
  rewrite cumsum_from_length. reflexivity.
Qed.

Lemma cumsum_from_nth (acc : float) (a : array) (i : nat) :
  (i < length a)%nat ->
  nth i (cumsum_from acc a) NaN = fadd acc (np_sum (firstn (S i) a)).
Proof.
  revert acc i. induction a as [|x a IH]; intros acc i Hi;
    cbn [length] in Hi; [lia|].
  destruct i as [|i].
  - cbn [cumsum_from nth firstn]. rewrite np_sum_cons, np_sum_nil, fadd_0_r.
    reflexivity.
  - cbn [cumsum_from nth]. rewrite IH by lia.
    change (firstn (S (S i)) (x :: a)) with (x :: firstn (S i) a).
    rewrite np_sum_cons, fadd_assoc. reflexivity.
Qed.

Lemma np_cumsum_nth (a : array) (i : nat) :
  (i < length a)%nat ->
  nth i (np_cumsum a) NaN = np_sum (firstn (S i) a).
Proof.
  destruct a as [|x a]; cbn [length]; intros Hi; [lia|].
  destruct i as [|i].
  - cbn [np_cumsum nth firstn]. rewrite np_sum_cons, np_sum_nil, fadd_0_r.
    reflexivity.
  - cbn [np_cumsum nth]. rewrite cumsum_from_nth by lia.
    change (firstn (S (S i)) (x :: a)) with (x :: firstn (S i) a).
    rewrite np_sum_cons. reflexivity.
Qed.

(** The array [pct] of [contour_levels] holds the cumulative fractions. *)
Lemma pct_nth (s : array) (i : nat) :
  (i < length s)%nat ->
  nth i (map (fun c => fdiv c (np_sum s)) (np_cumsum s)) NaN
  = cumulative_fraction s i.
Proof.
  intros Hi. unfold cumulative_fraction.
  rewrite <- (np_cumsum_nth s i Hi).
  change NaN with ((fun c => fdiv c (np_sum s)) NaN) at 1.
  apply map_nth.
Qed.

(** ** Cumulative mass of a descending array *)

Lemma Rsum_app (p q : list R) : Rsum (p ++ q) = Rsum p + Rsum q.
Proof. induction p as [|x p IH]; simpl; [lra|]. rewrite IH. lra. Qed.

Lemma Rsum_pos_exists (q : list R) :
  0 < Rsum q -> exists y, In y q /\ 0 < y.
Proof.
  induction q as [|x q IH]; simpl; intros H; [lra|].
  destruct (Rlt_dec 0 x) as [Hx|Hx].
  - exists x. split; [left; reflexivity|exact Hx].
  - destruct IH as [y [Hy Hp]]; [lra|].
    exists y. split; [right; exact Hy|exact Hp].
Qed.

Lemma Rsum_firstn_mono (p : list R) (i j : nat) :
  Forall (fun x => 0 <= x) p -> (i <= j)%nat ->
  Rsum (firstn i p) <= Rsum (firstn j p).
Proof.
  intros Hp. revert i j. induction Hp as [|x p Hx _ IH]; intros i j Hij.
  - rewrite !firstn_nil. lra.
  - destruct i as [|i]; destruct j as [|j]; try lia; simpl.
    + lra.
    + assert (0 <= Rsum (firstn j p)).
      { specialize (IH 0%nat j ltac:(lia)). simpl in IH. exact IH. }
      lra.
    + specialize (IH i j ltac:(lia)). lra.
Qed.

Lemma descending_split (p q : list R) :
  descending (map Fin (p ++ q)) ->
  Forall (fun x => Forall (fun y => y <= x) q) p.
Proof.
  unfold descending. induction p as [|x p IH]; cbn [app map]; intros H.
  - constructor.
  - inversion H as [|? ? Hs Hall]; subst. constructor; [|apply IH; exact Hs].
    rewrite map_app in Hall. apply Forall_app in Hall.
    destruct Hall as [_ Hq].
    apply Forall_forall. intros y Hy. rewrite Forall_forall in Hq.
    specialize (Hq (Fin y) (in_map Fin q y Hy)). cbn [fle] in Hq.
    apply Rleb_true in Hq. exact Hq.
Qed.

Section SortedMass.

(** The values of [sorted_], in descending order and of positive
    total. *)
Variable rs : list R.
Hypothesis rs_descending : descending (map Fin rs).
Hypothesis rs_positive : 0 < Rsum rs.

Abbreviation sorted_ := (map Fin rs).
Abbreviation pct :=
  (map (fun c => fdiv c (np_sum (map Fin rs))) (np_cumsum (map Fin rs))).

Lemma rs_nonempty : (0 < length rs)%nat.
Proof.
  destruct rs; [simpl in rs_positive; lra|simpl; lia].
Qed.

Lemma fraction_value (i : nat) :
  cumulative_fraction sorted_ i = Fin (Rsum (firstn (S i) rs) / Rsum rs).
Proof.
  unfold cumulative_fraction.
  rewrite firstn_map, !np_sum_Fin. cbn [fdiv].
  apply Rltb_true in rs_positive. rewrite rs_positive. reflexivity.
Qed.

Lemma pct_value (i : nat) :
  (i < length rs)%nat ->
  nth i pct NaN = Fin (Rsum (firstn (S i) rs) / Rsum rs).
Proof.
  intros Hi. rewrite pct_nth by (rewrite length_map; exact Hi).
  apply fraction_value.
Qed.

Lemma pct_length : length pct = length rs.
Proof. rewrite length_map, np_cumsum_length, length_map. reflexivity. Qed.

(** While the mass collected so far is below the total, it only grows:
    some later value is positive, hence so are all the earlier ones. *)
Lemma prefix_mass_mono (i j : nat) :
  (i <= j)%nat ->
  Rsum (firstn (S j) rs) < Rsum rs ->
  Rsum (firstn (S i) rs) <= Rsum (firstn (S j) rs).
Proof.
  intros Hij Hlt.
  pose proof (firstn_skipn (S j) rs) as Esplit.
  assert (Hq : 0 < Rsum (skipn (S j) rs)).
  { rewrite <- Esplit in Hlt at 2. rewrite Rsum_app in Hlt. lra. }
  destruct (Rsum_pos_exists _ Hq) as [y [Hy Hy0]].
  assert (Hp : Forall (fun x => 0 <= x) (firstn (S j) rs)).
  { pose proof rs_descending as Hd. rewrite <- Esplit in Hd.
    apply descending_split in Hd.
    eapply Forall_impl; [|exact Hd]. cbv beta. intros x Hx.
    rewrite Forall_forall in Hx. specialize (Hx y Hy). lra. }
  pose proof (Rsum_firstn_mono _ (S i) (S j) Hp ltac:(lia)) as Hm.
  rewrite !firstn_firstn in Hm.
  replace (Nat.min (S i) (S j)) with (S i) in Hm by lia.
  replace (Nat.min (S j) (S j)) with (S j) in Hm by lia.
  exact Hm.
Qed.

Lemma fraction_below (t : R) (i : nat) :
  (i < length rs)%nat ->
  np_less (nth i pct NaN) (Fin t) = true
  <-> Rsum (firstn (S i) rs) < t * Rsum rs.
Proof.
  intros Hi. rewrite pct_value by exact Hi.
  rewrite np_less_Fin, Rltb_true. split; intros H.
  - apply (Rmult_lt_compat_r (Rsum rs)) in H; [|exact rs_positive].
    unfold Rdiv in H. rewrite Rmult_assoc, Rinv_l in H by lra. lra.
  - apply (Rmult_lt_reg_r (Rsum rs)); [exact rs_positive|].
    unfold Rdiv. rewrite Rmult_assoc, Rinv_l by lra. lra.
Qed.

(** The positions whose fraction is below a target form a prefix. *)
Lemma pct_prefix (t : R) (i j : nat) :
  t <= 1 -> (i <= j < length rs)%nat ->
  np_less (nth j pct NaN) (Fin t) = true ->
  np_less (nth i pct NaN) (Fin t) = true.
Proof.
  intros Ht Hij Hj.
  apply fraction_below in Hj; [|lia].
  apply fraction_below; [lia|].
  assert (Hlt : Rsum (firstn (S j) rs) < Rsum rs) by nra.
  pose proof (prefix_mass_mono i j ltac:(lia) Hlt). lra.
Qed.

(** The last position holds the whole mass. *)
Lemma pct_last_not_below (t : R) :
  t <= 1 -> np_less (nth (length rs - 1) pct NaN) (Fin t) = false.
Proof.
  intros Ht. pose proof rs_nonempty as Hn.
  destruct (np_less (nth (length rs - 1) pct NaN) (Fin t)) eqn:E;
    [|reflexivity].
  apply fraction_below in E; [|lia].
  replace (S (length rs - 1)) with (length rs) in E by lia.
  rewrite firstn_all in E. nra.
Qed.

(** What [np.searchsorted(pct, t)] returns: a position of the array, the
    first one whose cumulative fraction meets or exceeds [t]. *)
Lemma cutoff_first (t : R) :
  t <= 1 ->
  (np_searchsorted pct (Fin t) < length rs)%nat /\
  first_position sorted_ (Fin t) (np_searchsorted pct (Fin t)).
Proof.
  intros Ht. unfold np_searchsorted. rewrite pct_length.
  pose proof rs_nonempty as Hn.
  destruct (bisect_left_prefix pct (Fin t) 0 (length rs) ltac:(lia))
    as [Hb [Hlow Hstop]].
  { intros i j Hij. apply pct_prefix; [exact Ht|lia]. }
  set (r := bisect_left pct (Fin t) 0 (length rs)) in *.
  assert (Hr : (r < length rs)%nat).
  { destruct (Nat.eq_dec r (length rs)) as [E|E]; [|lia].
    exfalso. pose proof (pct_last_not_below t Ht) as Hlast.
    rewrite Hlow in Hlast by lia. discriminate. }
  split; [exact Hr|]. unfold first_position. rewrite length_map.
  split; [exact Hr|]. split.
  - specialize (Hstop Hr). rewrite pct_value in Hstop by exact Hr.
    rewrite fraction_value. rewrite np_less_Fin in Hstop.
    apply Rltb_false in Hstop. cbn [fle]. apply Rleb_true. exact Hstop.
  - intros j Hj. specialize (Hlow j ltac:(lia)).
    rewrite pct_value in Hlow by lia. rewrite fraction_value.
    rewrite np_less_Fin in Hlow. apply Rltb_true in Hlow.
    cbn [fle]. apply Rleb_false. exact Hlow.
Qed.

(** A larger target is met no earlier. *)
Lemma cutoff_mono (t1 t2 : R) :
  t1 <= t2 -> t2 <= 1 ->
  (np_searchsorted pct (Fin t1) <= np_searchsorted pct (Fin t2))%nat.
Proof.
  intros H12 H2.
  destruct (cutoff_first t1 ltac:(lra)) as [_ [_ [_ Hlow1]]].
  destruct (cutoff_first t2 H2) as [_ [_ [Hmeet2 _]]].
  destruct (le_lt_dec (np_searchsorted pct (Fin t1))
              (np_searchsorted pct (Fin t2))) as [Hle|Hlt]; [exact Hle|].
  exfalso. specialize (Hlow1 _ Hlt).
  rewrite fraction_value in Hlow1, Hmeet2. cbn [fle] in Hlow1, Hmeet2.
  apply Rleb_false in Hlow1. apply Rleb_true in Hmeet2. lra.
Qed.

(** In a descending array, a later position holds no larger a value. *)
Lemma descending_nth (i j : nat) :
  (i <= j < length rs)%nat -> nth j rs 0 <= nth i rs 0.
Proof.
  clear rs_positive. revert i j rs_descending.
  unfold descending. induction rs as [|x l IH]; intros i j Hd Hij;
    cbn [length] in Hij; [lia|].
  cbn [map] in Hd. inversion Hd as [|? ? Hs Hall]; subst.
  destruct j as [|j].
  - assert (i = 0)%nat as -> by lia. lra.
  - destruct i as [|i].
    + cbn [nth]. rewrite Forall_forall in Hall.
      assert (Hin : In (Fin (nth j l 0)) (map Fin l))
        by (apply in_map, nth_In; lia).
      specialize (Hall _ Hin). cbn [fle] in Hall.
      apply Rleb_true in Hall. exact Hall.
    + cbn [nth]. apply IH; [exact Hs|lia].
Qed.

End SortedMass.

(** ** Contour levels *)

Lemma sorted_of_grid (grid : array2) (T : R) :
  np_sum (ravel grid) = Fin T ->
  exists rs,
    rev (np_sort (ravel grid)) = map Fin rs /\
    Permutation (map Fin rs) (ravel grid) /\
    descending (map Fin rs) /\ Rsum rs = T.
Proof.
  intros Hsum. destruct (np_sum_finite _ _ Hsum) as [rs0 E0].
  assert (Hf : Forall finite (ravel grid))
    by (rewrite E0; apply map_Fin_finite).
  destruct (sorted_descending _ Hf) as [Hperm Hdesc].
  assert (Hf' : Forall finite (rev (np_sort (ravel grid))))
    by (eapply Permutation_Forall; [symmetry; exact Hperm|exact Hf]).
  destruct (finite_map_Fin _ Hf') as [rs Ers].
  exists rs. rewrite <- Ers. repeat split; auto.
  pose proof (np_sum_Permutation _ _ Hperm) as Es.
  rewrite Ers, np_sum_Fin, Hsum in Es. injection Es as ->. reflexivity.
Qed.

Lemma nth_error_map_Fin (rs : list R) (i : nat) :
  (i < length rs)%nat -> nth_error (map Fin rs) i = Some (Fin (nth i rs 0)).
Proof.
  intros Hi. rewrite nth_error_map, (nth_error_nth' rs 0 Hi). reflexivity.
Qed.

(** The three cutoffs of [contour_levels] on a grid of positive total
    mass, and the levels read at them. *)
Lemma contour_levels_cutoffs (grid : array2) (T : R) :
  np_sum (ravel grid) = Fin T -> 0 < T ->
  exists (rs : list R) (c1 c2 c3 : nat),
    Permutation (map Fin rs) (ravel grid) /\
    descending (map Fin rs) /\
    (c1 <= c2 <= c3)%nat /\ (c3 < length rs)%nat /\
    first_position (map Fin rs) (Fin fraction_1sigma) c1 /\
    first_position (map Fin rs) (Fin fraction_2sigma) c2 /\
    first_position (map Fin rs) (Fin fraction_3sigma) c3 /\
    contour_levels grid
    = Ok [Fin (nth c1 rs 0); Fin (nth c2 rs 0); Fin (nth c3 rs 0)].
Proof.
  intros Hsum HT.
  destruct (sorted_of_grid grid T Hsum) as [rs [Ers [Hperm [Hdesc Esum]]]].
  assert (Hpos : 0 < Rsum rs) by lra.
  assert (H1 : fraction_1sigma <= fraction_2sigma)
    by (unfold fraction_1sigma, fraction_2sigma; lra).
  assert (H2 : fraction_2sigma <= fraction_3sigma)
    by (unfold fraction_2sigma, fraction_3sigma; lra).
  assert (H3 : fraction_3sigma <= 1) by (unfold fraction_3sigma; lra).
  set (pct := map (fun c => fdiv c (np_sum (map Fin rs)))
                  (np_cumsum (map Fin rs))).
  destruct (cutoff_first rs Hdesc Hpos fraction_1sigma ltac:(lra))
    as [L1 F1].
  destruct (cutoff_first rs Hdesc Hpos fraction_2sigma ltac:(lra))
    as [L2 F2].
  destruct (cutoff_first rs Hdesc Hpos fraction_3sigma H3) as [L3 F3].
  pose proof (cutoff_mono rs Hdesc Hpos fraction_1sigma fraction_2sigma
                H1 ltac:(lra)) as M12.
  pose proof (cutoff_mono rs Hdesc Hpos fraction_2sigma fraction_3sigma
                H2 H3) as M23.
  fold pct in L1, L2, L3, F1, F2, F3, M12, M23.
  exists rs, (np_searchsorted pct (Fin fraction_1sigma)),
    (np_searchsorted pct (Fin fraction_2sigma)),
    (np_searchsorted pct (Fin fraction_3sigma)).
  split; [exact Hperm|]. split; [exact Hdesc|].
  split; [split; assumption|].
  repeat (split; [assumption|]).
  unfold contour_levels. cbv zeta. rewrite Ers.
  fold pct. unfold mass_fractions, take.
  cbn [map sequence]. unfold getitem.
  rewrite !nth_error_map_Fin by assumption. reflexivity.
Qed.

(** The algorithm determines the levels: a descending arrangement of
    the cells is unique, and so is a first position. *)
Lemma fle_antisym (a b : float) :
  fle a b = true -> fle b a = true -> a = b.
Proof.
  destruct a, b; cbn [fle]; try discriminate; try reflexivity.
  rewrite !Rleb_true. intros H1 H2. f_equal. lra.
Qed.

Lemma descending_unique (s s' : array) :
  descending s -> descending s' -> Permutation s s' -> s = s'.
Proof.
  unfold descending. intros Hs. revert s'.
  induction Hs as [|x l Hl IH Hx]; intros s' Hs' Hperm.
  - apply Permutation_nil in Hperm. congruence.
  - destruct Hs' as [|y l' Hl' Hy].
    + symmetry in Hperm. apply Permutation_nil in Hperm. discriminate.
    + assert (E : x = y).
      { assert (Hxin : In x (y :: l'))
          by (eapply Permutation_in; [exact Hperm|left; reflexivity]).
        assert (Hyin : In y (x :: l))
          by (eapply Permutation_in;
              [symmetry; exact Hperm|left; reflexivity]).
        destruct Hxin as [E|Hxin]; [congruence|].
        destruct Hyin as [E|Hyin]; [congruence|].
        rewrite Forall_forall in Hx, Hy.
        apply fle_antisym; [apply Hy; exact Hxin|apply Hx; exact Hyin]. }
      subst y. f_equal. apply IH; [exact Hl'|].
      eapply Permutation_cons_inv. exact Hperm.
Qed.

Lemma first_position_unique (s : array) (target : float) (i j : nat) :
  first_position s target i -> first_position s target j -> i = j.
Proof.
  intros [_ [Hi Hbi]] [_ [Hj Hbj]].
  destruct (Nat.lt_trichotomy i j) as [H|[H|H]]; [|exact H|].
  - rewrite (Hbj i H) in Hi. discriminate.
  - rewrite (Hbi j H) in Hj. discriminate.
Qed.

Lemma levels_at_unique (targets : array) (grid : array2) (l l' : array) :
  levels_at targets grid l -> levels_at targets grid l' -> l = l'.
Proof.
  intros [s [Hp [Hd H]]] [s' [Hp' [Hd' H']]].
  assert (E : s = s').
  { apply descending_unique; try assumption.
    rewrite Hp, Hp'. reflexivity. }
  subst s'. clear Hp Hp' Hd Hd'. revert l' H'.
  induction H as [|t v ts l0 [i [Fi Ei]] _ IH]; intros l' H';
    inversion H' as [|? v' ? l0' [j [Fj Ej]] Hrest]; subst.
  - reflexivity.
  - rewrite (first_position_unique _ _ _ _ Fi Fj) in Ei.
    f_equal; [congruence|apply IH; exact Hrest].
Qed.

(** What [contour_levels] returns is what the algorithm gives for the
    mass fractions of the code. *)
Lemma contour_levels_meets_spec (grid : array2) (T : R) :
  np_sum (ravel grid) = Fin T -> 0 < T ->
  exists levels, contour_levels grid = Ok levels /\
                 levels_at mass_fractions grid levels.
Proof.
  intros Hsum HT.
  destruct (contour_levels_cutoffs grid T Hsum HT)
    as [rs [c1 [c2 [c3 [Hperm [Hdesc [Hord [Hlen [F1 [F2 [F3 E]]]]]]]]]]].
  eexists. split; [exact E|].
  exists (map Fin rs). split; [exact Hperm|]. split; [exact Hdesc|].
  unfold mass_fractions.
  constructor; [|constructor; [|constructor; [|constructor]]].
  - exists c1. split; [exact F1|apply nth_error_map_Fin; lia].
  - exists c2. split; [exact F2|apply nth_error_map_Fin; lia].
  - exists c3. split; [exact F3|apply nth_error_map_Fin; lia].
Qed.

(** A fraction that keeps clear of an exact square compares with it as
    it does with the double the code holds in its place. *)
Lemma fle_clear (t t' : R) (fraction : float) :
  0 < t -> t * (1 - / 1000000) < t' -> t' < t * (1 + / 1000000) ->
  clear_of (Fin t) fraction ->
  fle (Fin t') fraction = fle (Fin t) fraction.
Proof.
  intros Ht Hlo Hhi [t0 [f [Et [-> Hf]]]]. injection Et as <-.
  cbn [fle]. destruct Hf as [Hf|Hf].
  - replace (Rleb t' f) with false by (symmetry; apply Rleb_false; lra).
    symmetry. apply Rleb_false. lra.
  - replace (Rleb t' f) with true by (symmetry; apply Rleb_true; lra).
    symmetry. apply Rleb_true. lra.
Qed.

Lemma first_position_clear (s : array) (t t' : R) (c : nat) :
  0 < t -> t * (1 - / 1000000) < t' -> t' < t * (1 + / 1000000) ->
  (forall i, (i < length s)%nat ->
             clear_of (Fin t) (cumulative_fraction s i)) ->
  first_position s (Fin t') c -> first_position s (Fin t) c.
Proof.
  intros Ht Hlo Hhi Hclear [Hc [Hmeet Hlow]].
  split; [exact Hc|]. split.
  - rewrite <- (fle_clear t t' _ Ht Hlo Hhi (Hclear c Hc)). exact Hmeet.
  - intros j Hj.
    rewrite <- (fle_clear t t' _ Ht Hlo Hhi (Hclear j ltac:(lia))).
    apply Hlow. exact Hj.
Qed.

(** C1, as the code has it.  On a grid of densities with positive total
    mass, [contour_levels] returns what the algorithm prescribes for the
    targets [0.68^2], [0.95^2], [0.997^2] -- with the values sorted in
    descending order and the cumulative sums divided by the total, the
    value at the first position whose cumulative fraction meets or
    exceeds the target -- provided no cumulative fraction comes within
    one part in a million of a target (the grid having at most a million
    cells and a total mass of at most 2^1000).  The code compares with
    the doubles [0.68 ** 2], [0.95 ** 2], [0.997 ** 2], which are not the
    exact squares, so a fraction that sits on a target can fall on
    either side of it. *)
Theorem contour_levels_refines_spec :
  forall (grid : array2) (T : R),
    Forall density (ravel grid) ->
    (Z.of_nat (length (ravel grid)) <= 1000000)%Z ->
    np_sum (ravel grid) = Fin T -> 0 < T -> T <= 2 ^ 1000 ->
    well_separated grid ->
    exists levels : array,
      contour_levels grid = Ok levels /\
      contour_levels_spec grid levels /\
      (forall levels', contour_levels_spec grid levels' -> levels' = levels).
Proof.
  intros grid T _ _ Hsum HT _ Hsep.
  destruct (contour_levels_cutoffs grid T Hsum HT)
    as [rs [c1 [c2 [c3 [Hperm [Hdesc [Hord [Hlen [F1 [F2 [F3 E]]]]]]]]]]].
  assert (Hclear : forall target, In target target_fractions ->
            forall i, (i < length (map Fin rs))%nat ->
                      clear_of target (cumulative_fraction (map Fin rs) i)).
  { intros target Ht i Hi. apply (Hsep _ Hperm Hdesc i target Hi Ht). }
  assert (Hspec : contour_levels_spec grid
                    [Fin (nth c1 rs 0); Fin (nth c2 rs 0);
                     Fin (nth c3 rs 0)]).
  { exists (map Fin rs). split; [exact Hperm|]. split; [exact Hdesc|].
    unfold target_fractions.
    constructor; [|constructor; [|constructor; [|constructor]]].
    - exists c1. split; [|apply nth_error_map_Fin; lia].
      apply (first_position_clear _ _ fraction_1sigma);
        [lra|unfold fraction_1sigma; lra|unfold fraction_1sigma; lra| |exact F1].
      apply Hclear. left. reflexivity.
    - exists c2. split; [|apply nth_error_map_Fin; lia].
      apply (first_position_clear _ _ fraction_2sigma);
        [lra|unfold fraction_2sigma; lra|unfold fraction_2sigma; lra| |exact F2].
      apply Hclear. right. left. reflexivity.
    - exists c3. split; [|apply nth_error_map_Fin; lia].
      apply (first_position_clear _ _ fraction_3sigma);
        [lra|unfold fraction_3sigma; lra|unfold fraction_3sigma; lra| |exact F3].
      apply Hclear. right. right. left. reflexivity. }
  eexists. split; [exact E|]. split; [exact Hspec|].
  intros levels' H'.
  apply (levels_at_unique target_fractions grid); assumption.
Qed.

(** C9. On a grid of positive total mass the three levels come out in
    non-increasing order: 1-sigma >= 2-sigma >= 3-sigma. *)
Theorem contour_levels_non_increasing :
  forall (grid : array2) (T : R),
    np_sum (ravel grid) = Fin T -> 0 < T ->
    exists l1 l2 l3 : R,
      contour_levels grid = Ok [Fin l1; Fin l2; Fin l3] /\
      l2 <= l1 /\ l3 <= l2.
Proof.
  intros grid T Hsum HT.
  destruct (contour_levels_cutoffs grid T Hsum HT)
    as [rs [c1 [c2 [c3 [_ [Hdesc [Hord [Hlen [_ [_ [_ E]]]]]]]]]]].
  exists (nth c1 rs 0), (nth c2 rs 0), (nth c3 rs 0).
  split; [exact E|].
  split; apply (descending_nth rs Hdesc); lia.
Qed.

Lemma contour_levels_non_increasing_witness :
  exists l1 l2 l3 : R,
    contour_levels [[Fin 1; Fin 2]; [Fin 3; Fin 4]]
    = Ok [Fin l1; Fin l2; Fin l3] /\
    l2 <= l1 /\ l3 <= l2.
Proof.
  apply (contour_levels_non_increasing [[Fin 1; Fin 2]; [Fin 3; Fin 4]] 10).
  - unfold ravel, np_sum. cbn [concat app fold_left fadd]. f_equal. lra.
  - lra.
Defined.

(** A worked example: the grid [[1, 2], [3, 4]] sorts to [4, 3, 2, 1],
    its cumulative fractions are [0.4, 0.7, 0.9, 1.0], the cutoffs are
    [1, 3, 3] and the levels [3, 1, 1]. *)
Ltac decide_cmp :=
  repeat match goal with
    | |- context [Rltb ?a ?b] =>
        first
          [ replace (Rltb a b) with true
              by (symmetry; apply Rltb_true; lra)
          | replace (Rltb a b) with false
              by (symmetry; apply Rltb_false; lra) ]
    end.

Example contour_levels_2x2 :
  contour_levels [[Fin 1; Fin 2]; [Fin 3; Fin 4]] = Ok [Fin 3; Fin 1; Fin 1].
Proof.
  unfold contour_levels, ravel. cbn [concat app np_sort].
  unfold insert_sorted.
  do 3 (rewrite ?np_less_Fin; decide_cmp).
  cbn [rev app np_cumsum cumsum_from fadd map].
  unfold np_sum. cbn [fold_left fadd fdiv]. decide_cmp. cbn [orb].
  unfold mass_fractions, fraction_1sigma, fraction_2sigma, fraction_3sigma.
  cbn [map].
  unfold np_searchsorted. cbn [length].
  repeat (simp bisect_left; unfold midpoint;
          cbn; rewrite ?np_less_Fin; decide_cmp).
  reflexivity.
Qed.

(** The cumulative fractions of a list of finite values. *)
Lemma cumulative_fraction_Fin (rs : list R) (i : nat) :
  0 < Rsum rs ->
  cumulative_fraction (map Fin rs) i
  = Fin (Rsum (firstn (S i) rs) / Rsum rs).
Proof. intros Hpos. apply (fraction_value rs Hpos). Qed.

Lemma descending_values (rs : list R) :
  StronglySorted (fun a b => b <= a) rs -> descending (map Fin rs).
Proof.
  unfold descending. induction 1 as [|x rs Hs IH Hx]; cbn [map].
  - constructor.
  - constructor; [exact IH|]. apply Forall_forall. intros v Hv.
    apply in_map_iff in Hv. destruct Hv as [r [<- Hr]].
    rewrite Forall_forall in Hx. cbn [fle]. apply Rleb_true. auto.
Qed.

(** The grid [[1, 2], [3, 4]] keeps its cumulative fractions 0.4, 0.7,
    0.9, 1 clear of the three targets. *)
Lemma well_separated_2x2 : well_separated [[Fin 1; Fin 2]; [Fin 3; Fin 4]].
Proof.
  intros s Hperm Hdesc i target Hi Ht.
  assert (Hd : descending (map Fin [4; 3; 2; 1]))
    by (apply descending_values;
        repeat (constructor; [|repeat constructor; lra]); constructor).
  assert (Es : s = map Fin [4; 3; 2; 1]).
  { apply descending_unique; [exact Hdesc|exact Hd|].
    rewrite Hperm. unfold ravel. cbn [concat app map].
    apply Permutation_rev. }
  subst s. rewrite cumulative_fraction_Fin by (simpl; lra).
  unfold target_fractions in Ht. cbn [length map] in Hi.
  destruct Ht as [<-|[<-|[<-|[]]]];
    (eexists; eexists; split; [reflexivity|]; split; [reflexivity|]);
    (destruct i as [|[|[|[|i]]]]; [| | | |lia]); simpl; lra.
Qed.

Lemma contour_levels_refines_spec_witness :
  exists levels : array,
    contour_levels [[Fin 1; Fin 2]; [Fin 3; Fin 4]] = Ok levels /\
    contour_levels_spec [[Fin 1; Fin 2]; [Fin 3; Fin 4]] levels /\
    (forall levels',
       contour_levels_spec [[Fin 1; Fin 2]; [Fin 3; Fin 4]] levels' ->
       levels' = levels).
Proof.
  apply (contour_levels_refines_spec [[Fin 1; Fin 2]; [Fin 3; Fin 4]] 10).
  - unfold ravel. cbn [concat app].
    repeat (apply Forall_cons; [eexists; split; [reflexivity|lra]|]).
    apply Forall_nil.
  - unfold ravel. cbn [concat app length]. lia.
  - unfold ravel, np_sum. cbn [concat app fold_left fadd]. f_equal. lra.
  - lra.
  - apply Rle_trans with (2 ^ 4); [simpl; lra|].
    apply Rle_pow; [lra|lia].
  - apply well_separated_2x2.
Defined.

(** C1, counterexample: the one-row grid [[4624, 3000, 2376]], of total
    mass 10000.  Its first cumulative fraction is 0.4624, which meets the
    target [0.68^2] exactly, so the algorithm prescribes 4624 as the first
    level.  The code compares with the double [0.68 ** 2], which is just
    above 0.4624, and returns 3000. *)
Lemma contour_levels_exact_target_missed :
  let grid := [[Fin 4624; Fin 3000; Fin 2376]] in
  Forall density (ravel grid) /\
  np_sum (ravel grid) = Fin 10000 /\
  contour_levels grid = Ok [Fin 3000; Fin 2376; Fin 2376] /\
  contour_levels_spec grid [Fin 4624; Fin 2376; Fin 2376] /\
  ~ contour_levels_spec grid [Fin 3000; Fin 2376; Fin 2376].
Proof.
  cbv zeta.
  assert (Hspec : contour_levels_spec [[Fin 4624; Fin 3000; Fin 2376]]
                    [Fin 4624; Fin 2376; Fin 2376]).
  { exists (map Fin [4624; 3000; 2376]).
    split; [reflexivity|]. split.
    - apply descending_values.
      repeat (constructor; [|repeat constructor; lra]); constructor.
    - unfold target_fractions.
      constructor; [|constructor; [|constructor; [|constructor]]].
      + exists 0%nat. split; [|reflexivity].
        split; [simpl; lia|]. split.
        * rewrite cumulative_fraction_Fin by (simpl; lra).
          cbn [fle]. apply Rleb_true. simpl. lra.
        * intros j Hj. lia.
      + exists 2%nat. split; [|reflexivity].
        split; [simpl; lia|]. split.
        * rewrite cumulative_fraction_Fin by (simpl; lra).
          cbn [fle]. apply Rleb_true. simpl. lra.
        * intros j Hj. rewrite cumulative_fraction_Fin by (simpl; lra).
          cbn [fle]. apply Rleb_false.
          destruct j as [|[|j]]; [| |lia]; simpl; lra.
      + exists 2%nat. split; [|reflexivity].
        split; [simpl; lia|]. split.
        * rewrite cumulative_fraction_Fin by (simpl; lra).
          cbn [fle]. apply Rleb_true. simpl. lra.
        * intros j Hj. rewrite cumulative_fraction_Fin by (simpl; lra).
          cbn [fle]. apply Rleb_false.
          destruct j as [|[|j]]; [| |lia]; simpl; lra. }
  split; [|split; [|split; [|split; [exact Hspec|]]]].
  - unfold ravel. cbn [concat app].
    repeat (apply Forall_cons; [eexists; split; [reflexivity|lra]|]).
    apply Forall_nil.
  - unfold ravel, np_sum. cbn [concat app fold_left fadd]. f_equal. lra.
  - unfold contour_levels, ravel. cbn [concat app np_sort].
    unfold insert_sorted.
    do 3 (rewrite ?np_less_Fin; decide_cmp).
    cbn [rev app np_cumsum cumsum_from fadd map].
    unfold np_sum. cbn [fold_left fadd fdiv]. decide_cmp. cbn [orb].
    unfold mass_fractions, fraction_1sigma, fraction_2sigma, fraction_3sigma.
    cbn [map].
    unfold np_searchsorted. cbn [length].
    repeat (simp bisect_left; unfold midpoint;
            cbn; rewrite ?np_less_Fin; decide_cmp).
    reflexivity.
  - intros H.
    pose proof (levels_at_unique _ _ _ _ H Hspec) as E.
    injection E as E. lra.
Qed.

(** ** The all-rejected grid *)

Lemma np_less_NaN_l (v : float) : np_less NaN v = false.
Proof. destruct v; reflexivity. Qed.

Lemma insert_sorted_NaN (l : array) :
  Forall (eq NaN) l -> insert_sorted NaN l = NaN :: l.
Proof.
  destruct 1 as [|x l <- _]; cbn [insert_sorted]; [reflexivity|].
  rewrite np_less_NaN_l. reflexivity.
Qed.

Lemma np_sort_all_NaN (l : array) : Forall (eq NaN) l -> np_sort l = l.
Proof.
  induction 1 as [|x l <- Hl IH]; cbn [np_sort]; [reflexivity|].
  rewrite IH. apply insert_sorted_NaN. exact Hl.
Qed.

Lemma cumsum_from_NaN (a : array) : Forall (eq NaN) (cumsum_from NaN a).
Proof.
  induction a as [|x a IH]; cbn [cumsum_from fadd]; constructor;
    [reflexivity|exact IH].
Qed.

Lemma np_cumsum_all_NaN (l : array) :
  Forall (eq NaN) l -> Forall (eq NaN) (np_cumsum l).
Proof.
  destruct 1 as [|x l <- _]; cbn [np_cumsum]; constructor;
    [reflexivity|apply cumsum_from_NaN].
Qed.

Lemma nth_all_NaN (l : array) (i : nat) :
  Forall (eq NaN) l -> nth i l NaN = NaN.
Proof.
  intros H. revert i. induction H as [|x l <- _ IH]; intros [|i];
    cbn [nth]; auto.
Qed.

(** On a grid of [nan] the levels are [nan] too, and nothing is raised. *)
Lemma contour_levels_all_NaN (P : array2) :
  ravel P <> [] -> Forall (eq NaN) (ravel P) ->
  contour_levels P = Ok [NaN; NaN; NaN].
Proof.
  intros Hne Hall. unfold contour_levels. cbv zeta.
  rewrite (np_sort_all_NaN _ Hall).
  assert (Hs : Forall (eq NaN) (rev (ravel P)))
    by (apply Forall_rev; exact Hall).
  assert (Hs0 : nth_error (rev (ravel P)) 0 = Some NaN).
  { destruct (rev (ravel P)) as [|v l] eqn:E.
    - exfalso. apply Hne. apply (f_equal (@rev float)) in E.
      rewrite rev_involutive in E. exact E.
    - inversion Hs; subst. reflexivity. }
  set (s := rev (ravel P)) in *.
  set (pct := map (fun c => fdiv c (np_sum s)) (np_cumsum s)).
  assert (Hpct : Forall (eq NaN) pct).
  { apply Forall_forall. intros v Hv. apply in_map_iff in Hv.
    destruct Hv as [c [<- Hc]].
    pose proof (np_cumsum_all_NaN s Hs) as Hc'.
    rewrite Forall_forall in Hc'. rewrite <- (Hc' c Hc). reflexivity. }
  assert (Hcut : forall v, np_searchsorted pct v = 0%nat).
  { intros v. unfold np_searchsorted.
    destruct (bisect_left_prefix pct v 0 (length pct) ltac:(lia))
      as [_ [Hlow _]].
    - intros i j _ Hj.
      rewrite (nth_all_NaN _ j Hpct), np_less_NaN_l in Hj. discriminate.
    - destruct (bisect_left pct v 0 (length pct)) as [|r]; [reflexivity|].
      specialize (Hlow 0%nat ltac:(lia)).
      rewrite (nth_all_NaN _ 0 Hpct), np_less_NaN_l in Hlow. discriminate. }
  unfold mass_fractions, take. cbn [map]. rewrite !Hcut.
  cbn [sequence]. unfold getitem. rewrite Hs0. reflexivity.
Qed.

Lemma linspace_nonempty (a b : float) : linspace a b <> [].
Proof.
  unfold linspace. intros E. apply app_eq_nil in E. destruct E as [_ E].
  discriminate.
Qed.

(** A computed grid has as many rows as intercepts and as many columns
    as slopes: it is not empty. *)
Lemma log_P_nonempty (prior : array -> result float) (x y dy : array)
    (slope_range intercept_range : array) (logP : array2) :
  log_P prior x y dy slope_range intercept_range = Ok logP ->
  slope_range <> [] -> intercept_range <> [] -> ravel logP <> [].
Proof.
  intros H Hs Hi. unfold log_P in H. apply sequence_Ok_inv in H.
  destruct intercept_range as [|b ir]; [congruence|].
  cbn [map] in H. inversion H as [|? row ? rest Erow _]; subst.
  apply sequence_Ok_inv in Erow.
  destruct slope_range as [|m sr]; [congruence|].
  inversion Erow as [|? v ? row' _ _]; subst.
  unfold ravel. cbn [concat app]. discriminate.
Qed.

Lemma log_posterior_grid_nonempty (logP : array2) :
  log_posterior_grid logP -> ravel logP <> [].
Proof.
  intros [obs [sl [il H]]]. cbv zeta in H.
  destruct H as [H|H];
    (eapply log_P_nonempty; [exact H| |]; apply linspace_nonempty).
Qed.

(** The grid of the flat prior with no observation, the intercepts
    ranging over [2000, 3000]: every point is outside the prior's box. *)
Lemma rejected_grid_all_NInf (a b : R) :
  Forall (eq NInf)
    (ravel (map (fun b' => map (fun m => log_flat_prior [b'; m])
                            (linspace (Fin a) (Fin b)))
                (linspace (Fin 2000) (Fin 3000)))).
Proof.
  apply Forall_forall. intros v Hv. unfold ravel in Hv.
  apply in_concat in Hv. destruct Hv as [row [Hrow Hv]].
  apply in_map_iff in Hrow. destruct Hrow as [b' [<- Hb]].
  apply in_map_iff in Hv. destruct Hv as [m [<- Hm]].
  pose proof (linspace_lower 2000 3000 ltac:(lra)) as Hlow.
  rewrite Forall_forall in Hlow. destruct (Hlow _ Hb) as [r [-> Hr]].
  destruct (flat_prior_cases [Fin r; m]) as [[H _]|[_ ->]]; [|reflexivity].
  exfalso. inversion H as [|? ? [r' [E Hr']] _]; subst.
  injection E as <-. rewrite Rabs_pos_eq in Hr'; lra.
Qed.

(** C4, as the code has it.  Where every cell of the log-posterior grid
    is [-inf], nothing is reported: the maximum is [-inf], the
    subtraction gives [nan], and the evaluator returns normally a density
    grid made of [nan] only, from which [contour_levels] returns three
    [nan] levels. *)
Theorem all_rejected_grid_is_silent :
  forall logP : array2,
    log_posterior_grid logP ->
    Forall (eq NInf) (ravel logP) ->
    exists P : array2,
      normalized logP = Ok P /\
      Forall (eq NaN) (ravel P) /\
      contour_levels P = Ok [NaN; NaN; NaN].
Proof.
  intros logP Hgrid Hall.
  pose proof (log_posterior_grid_nonempty logP Hgrid) as Hne.
  destruct (normalized_all_rejected logP Hne Hall) as [P [E [HneP HP]]].
  exists P. split; [exact E|]. split; [exact HP|].
  apply contour_levels_all_NaN; assumption.
Qed.

Lemma all_rejected_grid_is_silent_witness :
  let logP :=
    map (fun b => map (fun m => log_flat_prior [b; m])
                      (linspace (Fin (3 / 10)) (Fin (7 / 10))))
        (linspace (Fin 2000) (Fin 3000)) in
  exists P : array2,
    normalized logP = Ok P /\
    Forall (eq NaN) (ravel P) /\
    contour_levels P = Ok [NaN; NaN; NaN].
Proof.
  cbv zeta. apply all_rejected_grid_is_silent.
  - exists [], (3 / 10, 7 / 10), (2000, 3000). cbv zeta. left.
    cbn [fst snd]. apply log_P1_empty.
  - apply rejected_grid_all_NInf.
Defined.

(** C4, counterexample: [plot_results] on no observation with
    [intercept_limits = (2000, 3000)].  Every cell of the flat-prior grid
    is [-inf]; the normalisation returns a grid of [nan] and raises
    nothing. *)
Lemma all_rejected_grid_not_reported :
  let slope_range := linspace (Fin (3 / 10)) (Fin (7 / 10)) in
  let intercept_range := linspace (Fin 2000) (Fin 3000) in
  exists logP P : array2,
    log_P1 (xs []) (ys []) (sigmas []) slope_range intercept_range
    = Ok logP /\
    Forall (eq NInf) (ravel logP) /\
    normalized logP = Ok P /\
    Forall (eq NaN) (ravel P) /\
    ~ raises (normalized logP).
Proof.
  cbv zeta.
  pose proof (rejected_grid_all_NInf (3 / 10) (7 / 10)) as Hall.
  pose proof (log_P1_empty (linspace (Fin (3 / 10)) (Fin (7 / 10)))
                (linspace (Fin 2000) (Fin 3000))) as E.
  pose proof (log_P_nonempty _ _ _ _ _ _ _ E
                (linspace_nonempty _ _) (linspace_nonempty _ _)) as Hne.
  destruct (normalized_all_rejected _ Hne Hall) as [P [EP [_ HP]]].
  eexists. exists P. split; [exact E|]. split; [exact Hall|].
  split; [exact EP|]. split; [exact HP|].
  intros [e He]. congruence.
Qed.

(** ** [plot_results] *)

Lemma sequence_map_total {A B : Type} (f : A -> result B) (l : list A) :
  (forall a, In a l -> exists b, f a = Ok b) ->
  exists r, sequence (map f l) = Ok r.
Proof.
  induction l as [|a l IH]; intros H.
  - exists []. reflexivity.
  - destruct (H a (or_introl eq_refl)) as [b Eb].
    destruct IH as [r Er]; [intros a' Ha'; apply H; right; exact Ha'|].
    exists (b :: r). cbn [map sequence]. rewrite Eb, Er. reflexivity.
Qed.

Lemma Forall2_map_l_ex {A B C : Type} (P : B -> C -> Prop) (f : A -> B)
    (l : list A) (r : list C) (x : A) :
  Forall2 P (map f l) r -> In x l -> exists y, In y r /\ P (f x) y.
Proof.
  revert r. induction l as [|a l IH]; intros r H Hx; [contradiction|].
  cbn [map] in H. inversion H as [|? y ? r' Py Hrest]; subst.
  destruct Hx as [<-|Hx].
  - exists y. split; [left; reflexivity|exact Py].
  - destruct (IH _ Hrest Hx) as [y' [Hy' Py']].
    exists y'. split; [right; exact Hy'|exact Py'].
Qed.

(** The cell of a computed grid at a given intercept and slope. *)
Lemma log_P_cell_at (prior : array -> result float) (x y dy : array)
    (slope_range intercept_range : array) (logP : array2) (b m : float) :
  log_P prior x y dy slope_range intercept_range = Ok logP ->
  In b intercept_range -> In m slope_range ->
  exists ll lp,
    log_likelihood [b; m] x y dy = Ok ll /\ prior [b; m] = Ok lp /\
    In (fadd ll lp) (ravel logP).
Proof.
  intros H Hb Hm. unfold log_P in H. apply sequence_Ok_inv in H.
  destruct (Forall2_map_l_ex _ _ _ _ _ H Hb) as [row [Hrow Erow]].
  apply sequence_Ok_inv in Erow.
  destruct (Forall2_map_l_ex _ _ _ _ _ Erow Hm) as [v [Hv Ev]].
  cbv beta in Ev.
  destruct (log_likelihood [b; m] x y dy) as [ll|e] eqn:Ell;
    [|discriminate].
  cbn [bind] in Ev.
  destruct (prior [b; m]) as [lp|e] eqn:Elp; [|discriminate].
  cbn [bind] in Ev. injection Ev as <-.
  exists ll, lp. repeat split; auto.
  unfold ravel. apply in_concat. exists row. split; assumption.
Qed.

(** On finite data with non-zero uncertainties the grid is computed. *)
Lemma log_P_total (prior : array -> result float) (obs : list observation)
    (a1 b1 a2 b2 : R) :
  Forall (fun o => obs_sigma o <> 0) obs ->
  (forall b m, exists lp, prior [Fin b; Fin m] = Ok lp) ->
  exists logP,
    log_P prior (xs obs) (ys obs) (sigmas obs)
      (linspace (Fin a1) (Fin b1)) (linspace (Fin a2) (Fin b2)) = Ok logP.
Proof.
  intros Hnz Hprior. unfold log_P.
  pose proof (linspace_finite a1 b1) as F1.
  pose proof (linspace_finite a2 b2) as F2.
  rewrite Forall_forall in F1, F2.
  apply sequence_map_total. intros b Hb. destruct (F2 _ Hb) as [b' ->].
  apply sequence_map_total. intros m Hm. destruct (F1 _ Hm) as [m' ->].
  rewrite (log_likelihood_all_nonzero b' m' [] obs Hnz). cbn [bind].
  destruct (Hprior b' m') as [lp ->]. cbn [bind]. eexists. reflexivity.
Qed.

Lemma np_max_In (l : array) (top : float) :
  Forall log_density l -> np_max l = Ok top -> In top l.
Proof.
  intros Hld E. destruct l as [|x l]; [discriminate|].
  destruct (np_max_log_density (x :: l) ltac:(discriminate) Hld)
    as [top' [E' [Hin _]]].
  rewrite E in E'. injection E' as ->. exact Hin.
Qed.

(** Densities add up to a finite total that bounds each of them. *)
Lemma density_sum (l : array) :
  Forall density l ->
  exists T, np_sum l = Fin T /\ 0 <= T /\
            forall r, In (Fin r) l -> r <= T.
Proof.
  induction 1 as [|v l [x [-> Hx]] _ [T [ET [HT Hb]]]].
  - exists 0. split; [reflexivity|]. split; [lra|]. intros r [].
  - exists (x + T). rewrite np_sum_cons, ET. split; [reflexivity|].
    split; [lra|]. intros r [E|Hr].
    + injection E as <-. lra.
    + specialize (Hb r Hr). lra.
Qed.

(** The normalised grid of a non-degenerate log-posterior grid has a
    positive total mass, so [contour_levels] returns on it. *)
Lemma contour_levels_of_normalized (logP P : array2) :
  Forall log_density (ravel logP) ->
  Exists (fun v => isfinite v = true) (ravel logP) ->
  normalized logP = Ok P ->
  exists levels, contour_levels P = Ok levels.
Proof.
  intros Hld Hfin E.
  destruct (normalized_log_density logP Hld Hfin) as [P' [E' [Emax Hd]]].
  rewrite E in E'. injection E' as <-.
  assert (Hone : In (Fin 1) (ravel P)).
  { apply np_max_In; [|exact Emax].
    eapply Forall_impl; [|exact Hd]. apply density_is_log_density. }
  destruct (density_sum _ Hd) as [T [ET [_ Hb]]].
  specialize (Hb 1 Hone).
  destruct (contour_levels_cutoffs P T ET ltac:(lra))
    as [rs [c1 [c2 [c3 [_ [_ [_ [_ [_ [_ [_ Elev]]]]]]]]]]].
  eexists. exact Elev.
Qed.

(** [plot_results] returns on every observation set with non-zero
    uncertainties when some grid point lies in the prior's box. *)
Lemma plot_results_returns (obs : list observation) (s1 s2 i1 i2 : R) :
  Forall (fun o => obs_sigma o <> 0) obs ->
  Rabs i2 < 1000 -> Rabs s2 < 1000 ->
  exists axes0 axes1,
    plot_results (xs obs) (ys obs) (sigmas obs)
      (Fin s1, Fin s2) (Fin i1, Fin i2) = Ok (axes0, axes1).
Proof.
  intros Hnz Hi Hs. unfold plot_results. cbn [fst snd].
  destruct (log_P_total (fun theta => Ok (log_flat_prior theta))
              obs s1 s2 i1 i2 Hnz) as [lP1 E1];
    [intros b m; eexists; reflexivity|].
  destruct (log_P_total log_symmetric_prior obs s1 s2 i1 i2 Hnz)
    as [lP2 E2].
  { intros b m. destruct (Rlt_dec (Rabs b) 1000) as [Hb|Hb].
    - rewrite (symmetric_prior_inside b m Hb). eexists. reflexivity.
    - rewrite symmetric_prior_outside; [eexists; reflexivity|].
      intros [r [E Hr]]. injection E as <-. contradiction. }
  fold log_P1 in E1. fold log_P2 in E2. rewrite E1, E2. cbn [bind].
  assert (Hll : exists l,
            log_likelihood [Fin i2; Fin s2] (xs obs) (ys obs) (sigmas obs)
            = Ok (Fin l))
    by (rewrite (log_likelihood_all_nonzero i2 s2 [] obs Hnz);
        eexists; reflexivity).
  destruct Hll as [l Ell].
  assert (Hf1 : Exists (fun v => isfinite v = true) (ravel lP1)).
  { destruct (log_P_cell_at _ _ _ _ _ _ _ _ _ E1
                (linspace_stop _ _) (linspace_stop _ _))
      as [ll [lp [Ell' [Elp Hin]]]].
    rewrite Ell in Ell'. injection Ell' as <-. injection Elp as <-.
    apply Exists_exists. eexists. split; [exact Hin|].
    destruct (flat_prior_cases [Fin i2; Fin s2]) as [[_ ->]|[H _]];
      [reflexivity|].
    exfalso. apply H. repeat constructor;
      eexists; (split; [reflexivity|assumption]). }
  assert (Hf2 : Exists (fun v => isfinite v = true) (ravel lP2)).
  { destruct (log_P_cell_at _ _ _ _ _ _ _ _ _ E2
                (linspace_stop _ _) (linspace_stop _ _))
      as [ll [lp [Ell' [Elp Hin]]]].
    rewrite Ell in Ell'. injection Ell' as <-.
    rewrite (symmetric_prior_inside i2 s2 Hi) in Elp. injection Elp as <-.
    apply Exists_exists. eexists. split; [exact Hin|reflexivity]. }
  assert (Hd1 : Forall log_density (ravel lP1)).
  { eapply (log_P_log_density _ obs s1 s2 i1 i2); [|exact E1|exact Hf1].
    intros b m lp E. injection E as <-. apply flat_prior_log_density. }
  assert (Hd2 : Forall log_density (ravel lP2)).
  { eapply (log_P_log_density _ obs s1 s2 i1 i2); [|exact E2|exact Hf2].
    apply symmetric_prior_log_density. }
  destruct (normalized_log_density lP1 Hd1 Hf1) as [P1 [EP1 _]].
  destruct (normalized_log_density lP2 Hd2 Hf2) as [P2 [EP2 _]].
  rewrite EP1, EP2. cbn [bind].
  destruct (contour_levels_of_normalized lP1 P1 Hd1 Hf1 EP1) as [lv Elv].
  rewrite Elv. cbn [bind]. do 2 eexists. reflexivity.
Qed.

(** C10. Whenever [plot_results] returns, the black contour lines of
    both panels use the levels of the flat-prior density grid [P1]:
    [contour_levels(P1)] is what the symmetric-prior panel is given too,
    and no [contour] call carries any other levels. *)
Theorem plot_results_contours_from_P1 :
  forall (x y dy : array) (slope_limits intercept_limits : float * float)
         (axes0 axes1 : list axes_call),
    plot_results x y dy slope_limits intercept_limits = Ok (axes0, axes1) ->
    exists (lP1 lP2 P1 P2 : array2) (levels : array),
      let slope_range := linspace (fst slope_limits) (snd slope_limits) in
      let intercept_range :=
        linspace (fst intercept_limits) (snd intercept_limits) in
      log_P1 x y dy slope_range intercept_range = Ok lP1 /\
      log_P2 x y dy slope_range intercept_range = Ok lP2 /\
      normalized lP1 = Ok P1 /\ normalized lP2 = Ok P2 /\
      contour_levels P1 = Ok levels /\
      nth_error axes0 1
      = Some (contour slope_range intercept_range P1 levels "black") /\
      nth_error axes1 1
      = Some (contour slope_range intercept_range P2 levels "black") /\
      (forall c lv, In c (axes0 ++ axes1) ->
                    contour_call_levels c = Some lv -> lv = levels).
Proof.
  intros x y dy sl il axes0 axes1 H. unfold plot_results in H.
  set (sr := linspace (fst sl) (snd sl)) in *.
  set (ir := linspace (fst il) (snd il)) in *.
  destruct (log_P1 x y dy sr ir) as [lP1|e] eqn:E1; [|discriminate].
  cbn [bind] in H.
  destruct (log_P2 x y dy sr ir) as [lP2|e] eqn:E2; [|discriminate].
  cbn [bind] in H.
  destruct (normalized lP1) as [P1|e] eqn:EP1; [|discriminate].
  cbn [bind] in H.
  destruct (normalized lP2) as [P2|e] eqn:EP2; [|discriminate].
  cbn [bind] in H.
  destruct (contour_levels P1) as [lv|e] eqn:Elv; [|discriminate].
  cbn [bind] in H. injection H as <- <-.
  exists lP1, lP2, P1, P2, lv. cbv zeta.
  repeat (split; [first [assumption|reflexivity]|]).
  intros c lv' Hc Hlv. unfold axes_tail in Hc. cbn [app In] in Hc.
  repeat (destruct Hc as [<-|Hc];
          [cbn [contour_call_levels] in Hlv; congruence|]).
  contradiction.
Qed.

Lemma plot_results_contours_from_P1_witness :
  exists (axes0 axes1 : list axes_call) (P1 : array2) (levels : array),
    plot_results (xs []) (ys []) (sigmas [])
      (Fin (3 / 10), Fin (7 / 10)) (Fin 15, Fin 35) = Ok (axes0, axes1) /\
    contour_levels P1 = Ok levels /\
    (forall c lv, In c (axes0 ++ axes1) ->
                  contour_call_levels c = Some lv -> lv = levels).
Proof.
  destruct (plot_results_returns [] (3 / 10) (7 / 10) 15 35)
    as [axes0 [axes1 E]].
  - constructor.
  - rewrite Rabs_pos_eq; lra.
  - rewrite Rabs_pos_eq; lra.
  - destruct (plot_results_contours_from_P1 _ _ _ _ _ _ _ E)
      as [lP1 [lP2 [P1 [P2 [lv [_ [_ [_ [_ [Elv [_ [_ Hall]]]]]]]]]]]].
    exists axes0, axes1, P1, lv. split; [exact E|].
    split; [exact Elv|exact Hall].
Defined.

(** * Further properties of the code *)

(** ** The data generators, continued *)

Section GeneratorOutcomes.

Context {RNG : RandomState}.

Lemma draws_Forall (P : float -> Prop) (draw : rng_state -> R * rng_state)
    (n : nat) (s : rng_state) :
  (forall s', P (Fin (fst (draw s')))) -> Forall P (fst (draws draw n s)).
Proof.
  intros H. revert s. induction n as [|n IH]; intros s; cbn [draws].
  - constructor.
  - pose proof (H s) as Hs. destruct (draw s) as [v s1].
    specialize (IH s1). destruct (draws draw n s1) as [vs s2].
    cbn [fst] in *. constructor; assumption.
Qed.

Lemma RandomState_init_invalid (rseed : Z) :
  (rseed < 0 \/ 2 ^ 32 <= rseed)%Z ->
  RandomState_init rseed = Raise ValueError.
Proof.
  intros H. unfold RandomState_init.
  destruct ((0 <=? rseed) && (rseed <? 2 ^ 32))%Z eqn:E; [|reflexivity].
  apply andb_true_iff in E. destruct E as [E1 E2].
  apply Z.leb_le in E1. apply Z.ltb_lt in E2. lia.
Qed.

Lemma fmul_1_r (a : float) : fmul a (Fin 1) = a.
Proof.
  destruct a; cbn [fmul]; unfold signed_inf; rcmp; try lra; try reflexivity.
  f_equal. lra.
Qed.

Lemma map_const_repeat {A B : Type} (b : B) (l : list A) :
  map (fun _ => b) l = repeat b (length l).
Proof. induction l as [|a l IH]; simpl; congruence. Qed.

Lemma sigma_column (dy : float) (x : array) :
  map (fmul dy) (ones_like x) = repeat dy (length x).
Proof.
  unfold ones_like. rewrite map_map.
  rewrite (map_ext _ (fun _ => dy)) by (intros; apply fmul_1_r).
  apply map_const_repeat.
Qed.

(** The body of [make_data] once the seed and [N] are accepted. *)
Lemma make_data_accepted (intercept slope dy : float) (N rseed : Z) :
  (0 <= N)%Z -> (0 <= rseed < 2 ^ 32)%Z ->
  let u := draws random_sample (Z.to_nat N) (rng_seed rseed) in
  let g := draws standard_normal (Z.to_nat N) (snd u) in
  let x := map (fmul (Fin 100)) (fst u) in
  make_data intercept slope N dy rseed
  = Ok (x,
        zip_with fadd (map (fun xi => fadd intercept (fmul slope xi)) x)
                 (map (fmul dy) (fst g)),
        repeat dy (Z.to_nat N)).
Proof.
  intros HN Hseed. cbv zeta. unfold make_data, rand_rand, rand_randn.
  rewrite (RandomState_init_valid rseed Hseed). cbn [bind].
  assert (E : (N <? 0)%Z = false) by (apply Z.ltb_ge; exact HN).
  rewrite E. cbn [bind].
  rewrite broadcast2_same_length
    by (rewrite !length_map, !draws_length; reflexivity).
  cbn [bind]. rewrite sigma_column, length_map, draws_length. reflexivity.
Qed.

Lemma make_data_scatter_accepted (intercept slope scatter dy : float)
    (N rseed : Z) :
  (0 <= rseed < 2 ^ 32)%Z ->
  let u := draws random_sample 20 (rng_seed rseed) in
  let g := draws standard_normal 20 (snd u) in
  let x := map (fmul (Fin 100)) (fst u) in
  make_data_scatter intercept slope scatter N dy rseed
  = Ok (x,
        zip_with fadd (map (fun xi => fadd intercept (fmul slope xi)) x)
                 (map (fmul (fsqrt (fadd (fsq dy) (fsq scatter)))) (fst g)),
        repeat dy 20).
Proof.
  intros Hseed. cbv zeta. unfold make_data_scatter, rand_rand, rand_randn.
  rewrite (RandomState_init_valid rseed Hseed). cbn [bind].
  change (20 <? 0)%Z with false. cbn [bind].
  change (Z.to_nat 20) with 20%nat.
  rewrite broadcast2_same_length
    by (rewrite !length_map, !draws_length; reflexivity).
  cbn [bind]. rewrite sigma_column, length_map, draws_length. reflexivity.
Qed.

End GeneratorOutcomes.

(** X1. Whenever [make_data] returns, it returns three sequences of [N]
    elements each, the third one holding [dy] at every position. *)
Theorem make_data_outcome :
  forall (RNG : RandomState) (intercept slope dy : float) (N rseed : Z)
         (x y s : array),
    make_data intercept slope N dy rseed = Ok (x, y, s) ->
    Z.of_nat (length x) = N /\ Z.of_nat (length y) = N /\
    s = repeat dy (length x).
Proof.
  intros RNG intercept slope dy N rseed x y s H.
  destruct (Z_lt_le_dec rseed 0) as [Hs|Hs];
    [unfold make_data in H; rewrite RandomState_init_invalid in H by lia;
     discriminate|].
  destruct (Z_lt_le_dec rseed (2 ^ 32)) as [Hs'|Hs'];
    [|unfold make_data in H; rewrite RandomState_init_invalid in H by lia;
      discriminate].
  destruct (Z_lt_le_dec N 0) as [HN|HN].
  - unfold make_data, rand_rand in H.
    rewrite RandomState_init_valid in H by lia. cbn [bind] in H.
    apply Z.ltb_lt in HN. rewrite HN in H. discriminate.
  - pose proof (make_data_accepted intercept slope dy N rseed HN
                  ltac:(lia)) as E. cbv zeta in E.
    rewrite E in H. injection H as <- <- <-.
    rewrite zip_with_length
      by (rewrite !length_map, !draws_length; reflexivity).
    rewrite !length_map, draws_length, Z2Nat.id by exact HN.
    repeat split; reflexivity.
Qed.

Lemma make_data_outcome_witness :
  exists x y s : array,
    @make_data counter_generator (Fin 25) (Fin (1 / 2)) 3 (Fin 5) 42
    = Ok (x, y, s) /\
    Z.of_nat (length x) = 3%Z /\ Z.of_nat (length y) = 3%Z /\
    s = repeat (Fin 5) (length x).
Proof.
  destruct (make_data_length (Fin 25) (Fin (1 / 2)) (Fin 5) 3 42)
    as [x [y [s [E _]]]]; [lia|lia|].
  exists x, y, s. split; [exact E|].
  apply (make_data_outcome counter_generator (Fin 25) (Fin (1 / 2)) (Fin 5)
           3 42 x y s E).
Defined.

(** X2. Whenever [make_data_scatter] returns, it reports [dy] alone as
    the uncertainty of each of its twenty points: the intrinsic scatter
    widens the noise of [y] but never enters the returned sigma. *)
Theorem make_data_scatter_reports_dy :
  forall (RNG : RandomState) (intercept slope scatter dy : float)
         (N rseed : Z) (x y s : array),
    make_data_scatter intercept slope scatter N dy rseed = Ok (x, y, s) ->
    length x = 20%nat /\ s = repeat dy 20.
Proof.
  intros RNG intercept slope scatter dy N rseed x y s H.
  destruct (Z_lt_le_dec rseed 0) as [Hs|Hs];
    [unfold make_data_scatter in H;
     rewrite RandomState_init_invalid in H by lia; discriminate|].
  destruct (Z_lt_le_dec rseed (2 ^ 32)) as [Hs'|Hs'];
    [|unfold make_data_scatter in H;
      rewrite RandomState_init_invalid in H by lia; discriminate].
  pose proof (make_data_scatter_accepted intercept slope scatter dy N rseed
                ltac:(lia)) as E. cbv zeta in E.
  pose proof (draws_length random_sample 20 (rng_seed rseed)) as Lu.
  set (u := draws random_sample 20 (rng_seed rseed)) in *.
  set (g := draws standard_normal 20 (snd u)) in *.
  clearbody g. clearbody u.
  rewrite E in H. injection H as Ex _ Es. rewrite <- Ex, <- Es.
  rewrite length_map. split; [exact Lu|reflexivity].
Qed.

Lemma make_data_scatter_reports_dy_witness :
  exists x y s : array,
    @make_data_scatter counter_generator (Fin 25) (Fin (1 / 2)) (Fin 3) 7
      (Fin 2) 42 = Ok (x, y, s) /\
    length x = 20%nat /\ s = repeat (Fin 2) 20.
Proof.
  pose proof (@make_data_scatter_accepted counter_generator (Fin 25)
                (Fin (1 / 2)) (Fin 3) (Fin 2) 7 42 ltac:(lia)) as E.
  cbv zeta in E. do 3 eexists. split; [exact E|].
  apply (make_data_scatter_reports_dy counter_generator _ _ _ _ _ _ _ _ _ E).
Defined.

(** X3. Fed by a generator whose uniform draws lie in [0, 1), [make_data]
    returns abscissas that are all finite and lie in [0, 100). *)
Theorem make_data_x_range :
  forall (RNG : RandomState) (intercept slope dy : float) (N rseed : Z)
         (x y s : array),
    (forall st, 0 <= fst (random_sample st) < 1) ->
    make_data intercept slope N dy rseed = Ok (x, y, s) ->
    Forall (fun v => exists r, v = Fin r /\ 0 <= r < 100) x.
Proof.
  intros RNG intercept slope dy N rseed x y s Hu H.
  unfold make_data in H.
  destruct (RandomState_init rseed) as [st|e]; [|discriminate].
  cbn [bind] in H. unfold rand_rand in H.
  destruct (N <? 0)%Z; [discriminate|]. cbn [bind] in H.
  destruct (rand_randn _ N) as [g|e]; [|discriminate]. cbn [bind] in H.
  destruct (broadcast2 _ _ _) as [y'|e]; [|discriminate]. cbn [bind] in H.
  injection H as <- _ _.
  apply Forall_forall. intros v Hv. apply in_map_iff in Hv.
  destruct Hv as [u [<- Hu']].
  pose proof (draws_Forall (fun v => exists r, v = Fin r /\ 0 <= r < 1)
                random_sample (Z.to_nat N) st) as Hd.
  rewrite Forall_forall in Hd.
  destruct (Hd (fun st' => ex_intro _ _ (conj eq_refl (Hu st'))) u Hu')
    as [r [-> Hr]].
  exists (100 * r). split; [reflexivity|lra].
Qed.

Lemma make_data_x_range_witness :
  exists x y s : array,
    @make_data counter_generator (Fin 25) (Fin (1 / 2)) 2 (Fin 5) 42
    = Ok (x, y, s) /\
    Forall (fun v => exists r, v = Fin r /\ 0 <= r < 100) x.
Proof.
  destruct (make_data_length (Fin 25) (Fin (1 / 2)) (Fin 5) 2 42)
    as [x [y [s [E _]]]]; [lia|lia|].
  exists x, y, s. split; [exact E|].
  apply (make_data_x_range counter_generator (Fin 25) (Fin (1 / 2)) (Fin 5)
           2 42 x y s); [|exact E].
  intros st. cbn [random_sample counter_generator fst].
  pose proof (Z.mod_pos_bound st 100 ltac:(lia)) as Hb.
  assert (H0 : 0 <= IZR (st mod 100)) by (apply IZR_le; lia).
  assert (H1 : IZR (st mod 100) < 100) by (apply IZR_lt; lia).
  lra.
Defined.

Lemma draws_finite {RNG : RandomState}
    (draw : rng_state -> R * rng_state) (n : nat) (s : rng_state) :
  Forall finite (fst (draws draw n s)).
Proof.
  apply draws_Forall. intros s'. eexists. reflexivity.
Qed.

Lemma zip_with_noise_free (line noise : array) :
  Forall finite line -> Forall finite noise ->
  length line = length noise ->
  zip_with fadd line (map (fmul (Fin 0)) noise) = line.
Proof.
  intros Hl. revert noise.
  induction Hl as [|v line [r ->] _ IH]; intros noise Hn Hlen.
  - destruct noise; reflexivity.
  - destruct Hn as [|g noise [q ->] Hn]; [discriminate|].
    cbn [map zip_with fmul fadd]. f_equal.
    + f_equal. lra.
    + apply IH; [exact Hn|]. simpl in Hlen. congruence.
Qed.

(** X4. With a noise scale of zero, the points [make_data] returns lie
    exactly on the line: [y = intercept + slope * x] at every position. *)
Theorem make_data_noise_free :
  forall (RNG : RandomState) (intercept slope : R) (N rseed : Z),
    (0 <= N)%Z -> (0 <= rseed < 2 ^ 32)%Z ->
    exists x s : array,
      make_data (Fin intercept) (Fin slope) N (Fin 0) rseed
      = Ok (x, map (fun xi => fadd (Fin intercept) (fmul (Fin slope) xi)) x,
            s).
Proof.
  intros RNG a b N rseed HN Hseed.
  pose proof (make_data_accepted (Fin a) (Fin b) (Fin 0) N rseed HN Hseed)
    as E. cbv zeta in E.
  do 2 eexists. rewrite E. do 2 f_equal. f_equal.
  apply zip_with_noise_free.
  - apply Forall_forall. intros v Hv. apply in_map_iff in Hv.
    destruct Hv as [xi [<- Hxi]]. apply in_map_iff in Hxi.
    destruct Hxi as [u [<- Hu]].
    pose proof (draws_finite random_sample (Z.to_nat N) (rng_seed rseed))
      as Hf.
    rewrite Forall_forall in Hf. destruct (Hf u Hu) as [r ->].
    eexists. reflexivity.
  - apply draws_finite.
  - rewrite !length_map, !draws_length. reflexivity.
Qed.

Lemma make_data_noise_free_witness :
  exists x s : array,
    @make_data counter_generator (Fin 25) (Fin (1 / 2)) 3 (Fin 0) 42
    = Ok (x, map (fun xi => fadd (Fin 25) (fmul (Fin (1 / 2)) xi)) x, s).
Proof.
  apply (make_data_noise_free counter_generator 25 (1 / 2) 3 42); lia.
Defined.

Lemma quadrature_no_scatter (d : R) :
  0 <= d -> fsqrt (fadd (fsq (Fin d)) (fsq (Fin 0))) = Fin d.
Proof.
  intros Hd. unfold fsq. cbn [fmul fadd fsqrt].
  assert (E : Rltb (d * d + 0 * 0) 0 = false) by (apply Rltb_false; nra).
  rewrite E. f_equal.
  replace (d * d + 0 * 0) with (Rsqr d) by (unfold Rsqr; ring).
  apply sqrt_Rsqr. exact Hd.
Qed.

(** X5. Without intrinsic scatter, and for a positive noise scale whose
    square neither underflows nor overflows (between 2^-500 and 2^500),
    [make_data_scatter] is [make_data] at twenty points: same result for
    the same seed, whatever [N] it is given. *)
Theorem make_data_scatter_without_scatter :
  forall (RNG : RandomState) (intercept slope : float) (dy : R)
         (N rseed : Z),
    / 2 ^ 500 <= dy -> dy <= 2 ^ 500 ->
    make_data_scatter intercept slope (Fin 0) N (Fin dy) rseed
    = make_data intercept slope 20 (Fin dy) rseed.
Proof.
  intros RNG intercept slope dy N rseed Hlo _.
  assert (Hd : 0 <= dy).
  { pose proof (Rinv_0_lt_compat _ (pow_lt 2 500 ltac:(lra))). lra. }
  unfold make_data_scatter, make_data.
  rewrite (quadrature_no_scatter dy Hd). reflexivity.
Qed.

Lemma pow_2_500_large : 2048 <= 2 ^ 500.
Proof.
  replace 2048 with (2 ^ 11) by (simpl; lra).
  apply Rle_pow; [lra|lia].
Qed.

Lemma make_data_scatter_without_scatter_witness :
  @make_data_scatter counter_generator (Fin 25) (Fin (1 / 2)) (Fin 0) 7
    (Fin 2) 42
  = @make_data counter_generator (Fin 25) (Fin (1 / 2)) 20 (Fin 2) 42.
Proof.
  pose proof pow_2_500_large as Hp.
  apply (make_data_scatter_without_scatter counter_generator).
  - assert (H : / 2 ^ 500 <= / 1)
      by (apply Rinv_le_contravar; lra).
    rewrite Rinv_1 in H. lra.
  - lra.
Defined.

(** ** The log-likelihood, continued *)

(** X6. A parameter vector with fewer than two components makes
    [log_likelihood] raise [IndexError], whatever the data. *)
Theorem log_likelihood_short_theta :
  forall theta x y dy : array,
    (length theta < 2)%nat ->
    log_likelihood theta x y dy = Raise IndexError.
Proof.
  intros theta x y dy H. unfold log_likelihood.
  destruct theta as [|t0 [|t1 rest]]; cbn [length] in H; try lia;
    reflexivity.
Qed.

Lemma log_likelihood_short_theta_witness :
  log_likelihood [Fin 25] [Fin 1] [Fin 2] [Fin 1] = Raise IndexError.
Proof.
  apply log_likelihood_short_theta. simpl. lia.
Defined.

Lemma log_likelihood_mismatch (t0 t1 : float) (rest x y dy : array) :
  length x <> length y -> length x <> 1%nat -> length y <> 1%nat ->
  log_likelihood (t0 :: t1 :: rest) x y dy = Raise ValueError.
Proof.
  intros Hxy Hx Hy. unfold log_likelihood.
  cbn [getitem nth_error bind]. unfold broadcast2 at 1.
  rewrite length_map.
  assert (E : Nat.eqb (length y) (length x) = false)
    by (apply Nat.eqb_neq; congruence).
  rewrite E.
  destruct y as [|y0 [|y1 y']]; cbn [length] in Hy; try congruence;
    destruct x as [|x0 [|x1 x']]; cbn [length] in Hx, Hxy; try congruence;
    reflexivity.
Qed.

(** X7. Abscissas and ordinates of different lengths, neither of length
    one, make [log_likelihood] raise [ValueError]: the arrays do not
    broadcast. *)
Theorem log_likelihood_shape_mismatch :
  forall (t0 t1 : float) (rest x y dy : array),
    length x <> length y -> length x <> 1%nat -> length y <> 1%nat ->
    log_likelihood (t0 :: t1 :: rest) x y dy = Raise ValueError.
Proof.
  intros t0 t1 rest x y dy. apply log_likelihood_mismatch.
Qed.

Lemma log_likelihood_shape_mismatch_witness :
  log_likelihood [Fin 25; Fin (1 / 2)] [Fin 1; Fin 2]
    [Fin 1; Fin 2; Fin 3] [Fin 1; Fin 1] = Raise ValueError.
Proof.
  apply log_likelihood_shape_mismatch; simpl; lia.
Defined.

Lemma fsq_fneg (d : float) : fsq (fneg d) = fsq d.
Proof.
  destruct d; unfold fsq; cbn [fneg fmul]; try reflexivity.
  f_equal. ring.
Qed.

(** X8. The sign of an uncertainty does not matter: [log_likelihood] is
    unchanged when every [dy] is negated, for all arrays, special values
    and broadcast shapes included. *)
Theorem log_likelihood_sigma_sign :
  forall theta x y dy : array,
    log_likelihood theta x y (map fneg dy) = log_likelihood theta x y dy.
Proof.
  intros theta x y dy. unfold log_likelihood. cbv zeta.
  assert (E1 : map fsq (map fneg dy) = map fsq dy)
    by (rewrite map_map; apply map_ext; intros d; apply fsq_fneg).
  assert (E2 : map (fun d => flog (fmul (fmul (Fin 2) (Fin PI)) (fsq d)))
                 (map fneg dy)
               = map (fun d => flog (fmul (fmul (Fin 2) (Fin PI)) (fsq d)))
                   dy)
    by (rewrite map_map; apply map_ext; intros d; rewrite fsq_fneg;
        reflexivity).
  rewrite E1, E2. reflexivity.
Qed.





(** ** The priors and the posterior, continued *)

Lemma ln_one_plus_square (m : R) : 0 <= ln (1 + m * m).
Proof.
  destruct (Req_dec m 0) as [->|Hm].
  - replace (1 + 0 * 0) with 1 by ring. rewrite ln_1. lra.
  - assert (H : 1 < 1 + m * m) by nra.
    pose proof (ln_increasing 1 (1 + m * m) ltac:(lra) H) as Hl.
    rewrite ln_1 in Hl. lra.
Qed.

(** X11. The symmetric log-prior is never positive and is the same for a
    slope and its opposite, special values included; inside the
    intercept bound it is 0 at a slope of zero. *)
Theorem log_symmetric_prior_even_peak :
  forall intercept slope : float,
    exists v : float,
      log_symmetric_prior [intercept; slope] = Ok v /\
      log_symmetric_prior [intercept; fneg slope] = Ok v /\
      flt (Fin 0) v = false /\
      (within_bound intercept -> slope = Fin 0 -> v = Fin 0).
Proof.
  intros b m. unfold log_symmetric_prior. cbn [getitem nth_error bind].
  destruct (flt (fabs b) (Fin 1000)) eqn:E.
  - cbn [getitem nth_error bind]. rewrite fsq_fneg.
    eexists. split; [reflexivity|]. split; [reflexivity|].
    assert (Hneg : Rltb 0 (- (3 / 2)) = false) by (apply Rltb_false; lra).
    assert (Hneg' : Rltb (- (3 / 2)) 0 = true) by (apply Rltb_true; lra).
    split.
    + destruct m as [s| | |]; unfold fsq; cbn [fmul fadd flog];
        unfold signed_inf; rewrite ?Hneg, ?Hneg'; try reflexivity.
      assert (Hp : Rltb 0 (1 + s * s) = true) by (apply Rltb_true; nra).
      rewrite Hp. cbn [fmul flt]. apply Rltb_false.
      pose proof (ln_one_plus_square s). lra.
    + intros _ ->. unfold fsq. cbn [fmul fadd flog].
      assert (Hp : Rltb 0 (1 + 0 * 0) = true) by (apply Rltb_true; lra).
      rewrite Hp. cbn [fmul]. f_equal.
      replace (1 + 0 * 0) with 1 by ring. rewrite ln_1. ring.
  - exists NInf. split; [reflexivity|]. split; [reflexivity|].
    split; [reflexivity|]. intros H _. apply in_bound_iff in H.
    congruence.
Qed.

Lemma log_symmetric_prior_even_peak_witness :
  log_symmetric_prior [Fin 25; Fin 0] = Ok (Fin 0) /\
  log_symmetric_prior [Fin 25; fneg (Fin 0)] = Ok (Fin 0).
Proof.
  destruct (log_symmetric_prior_even_peak (Fin 25) (Fin 0))
    as [v [E1 [E2 [_ H]]]].
  assert (Ev : v = Fin 0).
  { apply H; [|reflexivity]. exists 25. split; [reflexivity|].
    rewrite Rabs_pos_eq; lra. }
  subst v. split; assumption.
Defined.

(** X12. The two priors differ in support: a slope of absolute value
    1000 or more is rejected by the flat prior and accepted, with a
    finite log-density, by the symmetric prior, as long as its square
    does not overflow (up to 2^500). *)
Theorem symmetric_prior_leaves_slope_free :
  forall intercept slope : R,
    Rabs intercept < 1000 -> 1000 <= Rabs slope -> Rabs slope <= 2 ^ 500 ->
    log_flat_prior [Fin intercept; Fin slope] = NInf /\
    exists v : R,
      log_symmetric_prior [Fin intercept; Fin slope] = Ok (Fin v).
Proof.
  intros b m Hb Hm _. split.
  - destruct (flat_prior_cases [Fin b; Fin m]) as [[H _]|[_ E]];
      [|exact E].
    exfalso. inversion H as [|? ? _ H']; subst.
    inversion H' as [|? ? [r [Er Hr]] _]; subst.
    injection Er as <-. lra.
  - eexists. apply symmetric_prior_inside. exact Hb.
Qed.

Lemma symmetric_prior_leaves_slope_free_witness :
  log_flat_prior [Fin 25; Fin 2000] = NInf /\
  exists v : R, log_symmetric_prior [Fin 25; Fin 2000] = Ok (Fin v).
Proof.
  pose proof pow_2_500_large as Hp.
  apply symmetric_prior_leaves_slope_free; rewrite Rabs_pos_eq; lra.
Defined.

(** X13. On parameter vectors that are too short, [log_symmetric_prior]
    raises [IndexError] for the empty vector and for a single component
    inside the bound, and returns [-inf] for a single component outside
    it, the slope never being read. *)
Theorem log_symmetric_prior_short_theta :
  log_symmetric_prior [] = Raise IndexError /\
  forall t : float,
    (within_bound t /\ log_symmetric_prior [t] = Raise IndexError) \/
    (~ within_bound t /\ log_symmetric_prior [t] = Ok NInf).
Proof.
  split; [reflexivity|]. intros t. unfold log_symmetric_prior.
  cbn [getitem nth_error bind].
  destruct (flt (fabs t) (Fin 1000)) eqn:E.
  - left. split; [apply in_bound_iff; exact E|reflexivity].
  - right. split; [|reflexivity].
    intros H. apply in_bound_iff in H. congruence.
Qed.

(** X14. [log_posterior] is [log_likelihood], errors included, when
    every component of [theta] is inside the prior's box, and is never a
    finite value when one of them is outside. *)
Theorem log_posterior_box :
  forall theta x y dy : array,
    (Forall within_bound theta /\
     log_posterior theta x y dy = log_likelihood theta x y dy)
    \/
    (~ Forall within_bound theta /\
     never_finite (log_posterior theta x y dy)).
Proof.
  intros theta x y dy. unfold log_posterior.
  change (log_prior theta) with (log_flat_prior theta).
  destruct (flat_prior_cases theta) as [[H ->]|[H ->]].
  - left. split; [exact H|].
    destruct (log_likelihood theta x y dy) as [ll|e]; cbn [bind];
      [rewrite fadd_0_l|]; reflexivity.
  - right. split; [exact H|]. unfold never_finite.
    destruct (log_likelihood theta x y dy) as [[r| | |]|e]; cbn [bind fadd];
      try reflexivity; exact I.
Qed.

(** X15. The flat-prior grid of [plot_results] is [log_posterior] of the
    MCMC notebook evaluated at every grid point, errors included. *)
Theorem log_P1_is_log_posterior :
  forall x y dy slope_range intercept_range : array,
    log_P1 x y dy slope_range intercept_range
    = sequence (map (fun b =>
        sequence (map (fun m => log_posterior [b; m] x y dy) slope_range))
        intercept_range).
Proof.
  intros x y dy sr ir. unfold log_P1, log_P, log_posterior. f_equal.
  apply map_ext. intros b. f_equal. apply map_ext. intros m.
  destruct (log_likelihood [b; m] x y dy) as [ll|e]; cbn [bind];
    [|reflexivity].
  rewrite fadd_comm. reflexivity.
Qed.

(** ** Contour levels, continued *)

Lemma take_nil (idx : list nat) :
  idx <> [] -> take [] idx = Raise IndexError.
Proof.
  destruct idx as [|i idx]; [congruence|]. intros _.
  unfold take. cbn [map sequence]. unfold getitem.
  destruct i; reflexivity.
Qed.

(** X16. A grid without cells makes [contour_levels] raise
    [IndexError]: the cutoffs point into an empty sorted array. *)
Theorem contour_levels_empty_grid :
  forall grid : array2,
    ravel grid = [] -> contour_levels grid = Raise IndexError.
Proof.
  intros grid H. unfold contour_levels. cbv zeta. rewrite H.
  cbn [np_sort rev]. apply take_nil. discriminate.
Qed.

Lemma contour_levels_empty_grid_witness :
  contour_levels [[]; []] = Raise IndexError.
Proof.
  apply contour_levels_empty_grid. reflexivity.
Defined.

Lemma np_searchsorted_all_NaN (pct : array) (v : float) :
  Forall (eq NaN) pct -> np_searchsorted pct v = 0%nat.
Proof.
  intros Hpct. unfold np_searchsorted.
  destruct (bisect_left_prefix pct v 0 (length pct) ltac:(lia))
    as [_ [Hlow _]].
  - intros i j _ Hj.
    rewrite (nth_all_NaN _ j Hpct), np_less_NaN_l in Hj. discriminate.
  - destruct (bisect_left pct v 0 (length pct)) as [|r]; [reflexivity|].
    specialize (Hlow 0%nat ltac:(lia)).
    rewrite (nth_all_NaN _ 0 Hpct), np_less_NaN_l in Hlow. discriminate.
Qed.

(** Where every cumulative fraction is [nan], the three levels are the
    head of the sorted array. *)
Lemma levels_of_NaN_fractions (s : array) (v : float) (rest : array) :
  s = v :: rest ->
  Forall (eq NaN) (map (fun c => fdiv c (np_sum s)) (np_cumsum s)) ->
  take s (map (np_searchsorted
                 (map (fun c => fdiv c (np_sum s)) (np_cumsum s)))
              mass_fractions)
  = Ok [v; v; v].
Proof.
  intros Es Hpct. unfold mass_fractions, take. cbn [map].
  rewrite !(np_searchsorted_all_NaN _ _ Hpct).
  cbn [sequence]. unfold getitem. rewrite Es. reflexivity.
Qed.

Lemma np_sort_constant (v : float) (l : array) :
  np_less v v = false -> Forall (eq v) l -> np_sort l = l.
Proof.
  intros Hv. induction 1 as [|x l <- Hl IH]; cbn [np_sort]; [reflexivity|].
  rewrite IH. destruct Hl as [|y l' <- _]; cbn [insert_sorted];
    [reflexivity|]. rewrite Hv. reflexivity.
Qed.

Lemma np_sum_zeros (l : array) : Forall (eq (Fin 0)) l -> np_sum l = Fin 0.
Proof.
  induction 1 as [|x l <- _ IH]; [reflexivity|].
  rewrite np_sum_cons, IH. apply fadd_0_l.
Qed.

Lemma cumsum_from_zeros (l : array) :
  Forall (eq (Fin 0)) l -> Forall (eq (Fin 0)) (cumsum_from (Fin 0) l).
Proof.
  induction 1 as [|x l <- _ IH]; cbn [cumsum_from]; [constructor|].
  rewrite fadd_0_l. constructor; [reflexivity|exact IH].
Qed.

Lemma np_cumsum_zeros (l : array) :
  Forall (eq (Fin 0)) l -> Forall (eq (Fin 0)) (np_cumsum l).
Proof.
  destruct 1 as [|x l <- Hl]; cbn [np_cumsum]; constructor;
    [reflexivity|apply cumsum_from_zeros; exact Hl].
Qed.

(** X17. On a grid that is not empty and holds zeros only, nothing is
    raised: the total mass is 0, every cumulative fraction is [0/0], and
    [contour_levels] returns the three levels [0, 0, 0]. *)
Theorem contour_levels_zero_grid :
  forall grid : array2,
    ravel grid <> [] -> Forall (eq (Fin 0)) (ravel grid) ->
    contour_levels grid = Ok [Fin 0; Fin 0; Fin 0].
Proof.
  intros grid Hne Hall. unfold contour_levels. cbv zeta.
  rewrite (np_sort_constant (Fin 0) _) by
    (try exact Hall; rewrite np_less_Fin; apply Rltb_false; lra).
  assert (Hs : Forall (eq (Fin 0)) (rev (ravel grid)))
    by (apply Forall_rev; exact Hall).
  destruct (rev (ravel grid)) as [|v rest] eqn:E.
  - exfalso. apply Hne. apply (f_equal (@rev float)) in E.
    rewrite rev_involutive in E. exact E.
  - assert (Ev : v = Fin 0) by (inversion Hs; subst; reflexivity).
    subst v. apply (levels_of_NaN_fractions _ _ rest eq_refl).
    rewrite (np_sum_zeros _ Hs).
    apply Forall_forall. intros w Hw. apply in_map_iff in Hw.
    destruct Hw as [c [<- Hc]].
    pose proof (np_cumsum_zeros _ Hs) as Hz. rewrite Forall_forall in Hz.
    rewrite <- (Hz c Hc). cbn [fdiv]. unfold signed_inf.
    assert (Z0 : Rltb 0 0 = false) by (apply Rltb_false; lra).
    rewrite Z0. reflexivity.
Qed.

Lemma contour_levels_zero_grid_witness :
  contour_levels [[Fin 0; Fin 0]; [Fin 0; Fin 0]]
  = Ok [Fin 0; Fin 0; Fin 0].
Proof.
  apply contour_levels_zero_grid.
  - discriminate.
  - repeat constructor.
Defined.

Lemma Forall2_length_eq {A B : Type} (P : A -> B -> Prop)
    (l : list A) (r : list B) :
  Forall2 P l r -> length l = length r.
Proof. induction 1; simpl; congruence. Qed.

(** X18. Whenever [contour_levels] returns, it returns exactly three
    levels and each of them is the value of a cell of the grid, whatever
    the grid holds. *)
Theorem contour_levels_are_cells :
  forall (grid : array2) (levels : array),
    contour_levels grid = Ok levels ->
    length levels = 3%nat /\ Forall (fun l => In l (ravel grid)) levels.
Proof.
  intros grid levels H. unfold contour_levels, take in H. cbv zeta in H.
  apply sequence_Ok_inv in H.
  set (s := rev (np_sort (ravel grid))) in *.
  set (idx := map (np_searchsorted _) mass_fractions) in *.
  split.
  - rewrite <- (Forall2_length_eq _ _ _ H). rewrite length_map.
    unfold idx. rewrite length_map. reflexivity.
  - apply Forall_forall. intros l Hl.
    destruct (Forall2_map_l_in _ _ _ _ _ H Hl) as [i [_ Ei]].
    unfold getitem in Ei.
    destruct (nth_error s i) as [v|] eqn:En; [|discriminate].
    injection Ei as <-. apply nth_error_In in En.
    unfold s in En. apply in_rev in En.
    eapply Permutation_in; [apply np_sort_Permutation|exact En].
Qed.

Lemma contour_levels_are_cells_witness :
  length [Fin 3; Fin 1; Fin 1] = 3%nat /\
  Forall (fun l => In l (ravel [[Fin 1; Fin 2]; [Fin 3; Fin 4]]))
    [Fin 3; Fin 1; Fin 1].
Proof.
  apply (contour_levels_are_cells [[Fin 1; Fin 2]; [Fin 3; Fin 4]]).
  apply contour_levels_2x2.
Defined.

Lemma insert_sorted_keeps_last_NaN (x : float) (a : array) :
  exists a', insert_sorted x (a ++ [NaN]) = a' ++ [NaN].
Proof.
  induction a as [|y a [a' IH]]; cbn [app insert_sorted].
  - rewrite np_less_NaN_l. exists [x]. reflexivity.
  - destruct (np_less y x).
    + rewrite IH. exists (y :: a'). reflexivity.
    + exists (x :: y :: a). reflexivity.
Qed.

Lemma insert_sorted_NaN_last (a : array) :
  Forall (fun v => isnan v = false) a ->
  insert_sorted NaN a = a ++ [NaN].
Proof.
  induction 1 as [|y a Hy _ IH]; cbn [insert_sorted app]; [reflexivity|].
  assert (E : np_less y NaN = true)
    by (unfold np_less; destruct y; try reflexivity; discriminate).
  rewrite E, IH. reflexivity.
Qed.

(** [np.sort] puts a [nan] last. *)
Lemma np_sort_NaN_last (l : array) :
  In NaN l -> exists l', np_sort l = l' ++ [NaN].
Proof.
  induction l as [|x l IH]; intros H; [contradiction|].
  cbn [np_sort].
  destruct (existsb isnan l) eqn:E.
  - apply existsb_exists in E. destruct E as [v [Hv Hn]].
    destruct v; try discriminate.
    destruct (IH Hv) as [l' ->].
    destruct (insert_sorted_keeps_last_NaN x l') as [a' ->].
    eexists. reflexivity.
  - destruct H as [->|H].
    + exists (np_sort l). apply insert_sorted_NaN_last.
      apply Forall_forall. intros v Hv.
      destruct (isnan v) eqn:En; [|reflexivity].
      assert (Hin : In v l)
        by (eapply Permutation_in; [apply np_sort_Permutation|exact Hv]).
      assert (Hex : existsb isnan l = true)
        by (apply existsb_exists; exists v; split; assumption).
      congruence.
    + assert (Hex : existsb isnan l = true)
        by (apply existsb_exists; exists NaN; split; [exact H|reflexivity]).
      congruence.
Qed.

(** X19. One [nan] cell anywhere in the grid makes all three levels
    [nan], and nothing is raised. *)
Theorem contour_levels_nan_cell :
  forall grid : array2,
    In NaN (ravel grid) -> contour_levels grid = Ok [NaN; NaN; NaN].
Proof.
  intros grid H. unfold contour_levels. cbv zeta.
  destruct (np_sort_NaN_last _ H) as [l' ->].
  rewrite rev_app_distr. cbn [rev app].
  apply (levels_of_NaN_fractions _ _ (rev l') eq_refl).
  apply Forall_forall. intros w Hw. apply in_map_iff in Hw.
  destruct Hw as [c [<- Hc]]. cbn [np_cumsum] in Hc.
  assert (Ec : c = NaN).
  { destruct Hc as [<-|Hc]; [reflexivity|].
    pose proof (cumsum_from_NaN (rev l')) as Hn.
    rewrite Forall_forall in Hn. symmetry. apply Hn. exact Hc. }
  rewrite Ec. reflexivity.
Qed.

Lemma contour_levels_nan_cell_witness :
  contour_levels [[Fin 1; NaN]; [Fin 3; Fin 4]] = Ok [NaN; NaN; NaN].
Proof.
  apply contour_levels_nan_cell. simpl. auto.
Defined.

(** ** Contour levels under rearrangement *)

(** X22. The levels depend on the values of the cells only, not on where
    they sit: two grids of positive total mass holding the same cells in
    another arrangement (a transposed grid, for one) get the same
    levels. *)
Theorem contour_levels_layout_independent :
  forall (g1 g2 : array2) (T : R),
    np_sum (ravel g1) = Fin T -> 0 < T ->
    Permutation (ravel g1) (ravel g2) ->
    contour_levels g1 = contour_levels g2.
Proof.
  intros g1 g2 T Hsum HT Hperm.
  destruct (contour_levels_meets_spec g1 T Hsum HT) as [l1 [E1 S1]].
  assert (Hsum2 : np_sum (ravel g2) = Fin T)
    by (rewrite <- (np_sum_Permutation _ _ Hperm); exact Hsum).
  destruct (contour_levels_meets_spec g2 T Hsum2 HT) as [l2 [E2 S2]].
  rewrite E1, E2. f_equal.
  apply (levels_at_unique mass_fractions g2); [|exact S2].
  destruct S1 as [s [Hp [Hd Hf]]].
  exists s. split; [rewrite Hp; exact Hperm|]. split; assumption.
Qed.

Lemma contour_levels_layout_independent_witness :
  contour_levels [[Fin 1; Fin 2]; [Fin 3; Fin 4]]
  = contour_levels [[Fin 1; Fin 3]; [Fin 2; Fin 4]].
Proof.
  apply (contour_levels_layout_independent _ _ 10).
  - unfold ravel, np_sum. cbn [concat app fold_left fadd]. f_equal. lra.
  - lra.
  - unfold ravel. cbn [concat app]. constructor. apply perm_swap.
Defined.

(** ** Normalisation and [plot_results], continued *)

Lemma np_max_finite (l : array) :
  Forall log_density l -> Exists (fun v => isfinite v = true) l ->
  exists M, np_max l = Ok (Fin M) /\ In (Fin M) l /\
            Forall (fun v => fle v (Fin M) = true) l.
Proof.
  intros Hld Hfin.
  assert (Hne : l <> []) by (intros E; rewrite E in Hfin; inversion Hfin).
  destruct (np_max_log_density _ Hne Hld) as [top [Emax [Hin Hub]]].
  apply Exists_exists in Hfin. destruct Hfin as [v [Hv Hf]].
  pose proof Hub as Hub'. rewrite Forall_forall in Hub'.
  specialize (Hub' v Hv).
  destruct v; try discriminate. destruct top as [M| | |]; try discriminate.
  - exists M. auto.
  - rewrite Forall_forall in Hld.
    destruct (Hld _ Hin) as [E'|[r' E']]; discriminate.
Qed.

Lemma linspace_length (a b : float) : length (linspace a b) = 50%nat.
Proof.
  unfold linspace, linspace_num.
  rewrite length_app, length_map, length_seq. reflexivity.
Qed.

Lemma sequence_Ok_length {A : Type} (cs : list (result A)) (r : list A) :
  sequence cs = Ok r -> length r = length cs.
Proof.
  intros H. apply sequence_Ok_inv in H.
  symmetry. apply (Forall2_length_eq _ _ _ H).
Qed.

Lemma log_P_shape (prior : array -> result float) (x y dy : array)
    (slope_range intercept_range : array) (logP : array2) :
  log_P prior x y dy slope_range intercept_range = Ok logP ->
  length logP = length intercept_range /\
  Forall (fun row => length row = length slope_range) logP.
Proof.
  intros H. unfold log_P in H. split.
  - rewrite (sequence_Ok_length _ _ H). apply length_map.
  - apply sequence_Ok_inv in H. apply Forall_forall. intros row Hrow.
    destruct (Forall2_map_l_in _ _ _ _ _ H Hrow) as [b [_ Eb]].
    rewrite (sequence_Ok_length _ _ Eb). apply length_map.
Qed.

Lemma normalized_shape (logP P : array2) (n k : nat) :
  normalized logP = Ok P ->
  length logP = n -> Forall (fun row => length row = k) logP ->
  length P = n /\ Forall (fun row => length row = k) P.
Proof.
  intros H Hn Hk. unfold normalized in H.
  destruct (np_max (ravel logP)) as [top|e]; [|discriminate].
  cbn [bind] in H. injection H as <-. split.
  - rewrite length_map. exact Hn.
  - apply Forall_forall. intros row Hrow. apply in_map_iff in Hrow.
    destruct Hrow as [row' [<- Hrow']]. rewrite length_map.
    rewrite Forall_forall in Hk. apply Hk. exact Hrow'.
Qed.

(** X25. Whenever [plot_results] returns, the two grids it hands to
    [contourf] have 50 rows of 50 cells each, one row per intercept and
    one column per slope of the default [linspace] resolution. *)
Theorem plot_results_grid_shape :
  forall (x y dy : array) (slope_limits intercept_limits : float * float)
         (axes0 axes1 : list axes_call),
    plot_results x y dy slope_limits intercept_limits = Ok (axes0, axes1) ->
    exists P1 P2 : array2,
      let slope_range := linspace (fst slope_limits) (snd slope_limits) in
      let intercept_range :=
        linspace (fst intercept_limits) (snd intercept_limits) in
      nth_error axes0 0
      = Some (contourf slope_range intercept_range P1 100 "Blues") /\
      nth_error axes1 0
      = Some (contourf slope_range intercept_range P2 100 "Blues") /\
      length P1 = 50%nat /\ Forall (fun row => length row = 50%nat) P1 /\
      length P2 = 50%nat /\ Forall (fun row => length row = 50%nat) P2.
Proof.
  intros x y dy sl il axes0 axes1 H. unfold plot_results in H.
  set (sr := linspace (fst sl) (snd sl)) in *.
  set (ir := linspace (fst il) (snd il)) in *.
  destruct (log_P1 x y dy sr ir) as [lP1|e] eqn:E1; [|discriminate].
  cbn [bind] in H.
  destruct (log_P2 x y dy sr ir) as [lP2|e] eqn:E2; [|discriminate].
  cbn [bind] in H.
  destruct (normalized lP1) as [P1|e] eqn:EP1; [|discriminate].
  cbn [bind] in H.
  destruct (normalized lP2) as [P2|e] eqn:EP2; [|discriminate].
  cbn [bind] in H.
  destruct (contour_levels P1) as [lv|e] eqn:Elv; [|discriminate].
  cbn [bind] in H. injection H as <- <-.
  exists P1, P2. cbv zeta. fold sr ir.
  split; [reflexivity|]. split; [reflexivity|].
  destruct (log_P_shape _ _ _ _ _ _ _ E1) as [L1 R1].
  destruct (log_P_shape _ _ _ _ _ _ _ E2) as [L2 R2].
  unfold sr, ir in L1, R1, L2, R2. rewrite linspace_length in *.
  destruct (normalized_shape _ _ _ _ EP1 L1 R1) as [A1 B1].
  destruct (normalized_shape _ _ _ _ EP2 L2 R2) as [A2 B2].
  auto.
Qed.

Lemma plot_results_grid_shape_witness :
  exists (axes0 axes1 : list axes_call) (P1 P2 : array2),
    plot_results (xs []) (ys []) (sigmas [])
      (Fin (3 / 10), Fin (7 / 10)) (Fin 15, Fin 35) = Ok (axes0, axes1) /\
    length P1 = 50%nat /\ Forall (fun row => length row = 50%nat) P1 /\
    length P2 = 50%nat /\ Forall (fun row => length row = 50%nat) P2.
Proof.
  destruct (plot_results_returns [] (3 / 10) (7 / 10) 15 35)
    as [axes0 [axes1 E]].
  - constructor.
  - rewrite Rabs_pos_eq; lra.
  - rewrite Rabs_pos_eq; lra.
  - destruct (plot_results_grid_shape _ _ _ _ _ _ _ E)
      as [P1 [P2 [_ [_ H]]]].
    exists axes0, axes1, P1, P2. split; [exact E|exact H].
Defined.

(** The levels of a normalised grid. *)
Lemma contour_levels_of_densities (P : array2) :
  Forall density (ravel P) -> np_max (ravel P) = Ok (Fin 1) ->
  exists l1 l2 l3 : R,
    contour_levels P = Ok [Fin l1; Fin l2; Fin l3] /\
    l2 <= l1 /\ l3 <= l2 /\ 0 <= l3 /\ l1 <= 1.
Proof.
  intros Hd Emax.
  assert (Hld : Forall log_density (ravel P))
    by (eapply Forall_impl; [|exact Hd]; apply density_is_log_density).
  pose proof (np_max_In _ _ Hld Emax) as Hone.
  assert (Hfin : Exists (fun v => isfinite v = true) (ravel P))
    by (apply Exists_exists; exists (Fin 1); split; [exact Hone|reflexivity]).
  destruct (np_max_finite _ Hld Hfin) as [M [EM [_ Hub]]].
  rewrite Emax in EM. injection EM as <-.
  destruct (density_sum _ Hd) as [T [ET [_ Hb]]].
  specialize (Hb 1 Hone).
  destruct (contour_levels_cutoffs P T ET ltac:(lra))
    as [rs [c1 [c2 [c3 [Hperm [Hdesc [Hord [Hlen [_ [_ [_ E]]]]]]]]]]].
  exists (nth c1 rs 0), (nth c2 rs 0), (nth c3 rs 0).
  split; [exact E|].
  split; [apply (descending_nth rs Hdesc); lia|].
  split; [apply (descending_nth rs Hdesc); lia|].
  assert (Hcell : forall i, (i < length rs)%nat -> In (Fin (nth i rs 0)) (ravel P)).
  { intros i Hi. eapply Permutation_in; [exact Hperm|].
    apply in_map. apply nth_In. exact Hi. }
  rewrite Forall_forall in Hd, Hub. split.
  - destruct (Hd _ (Hcell c3 ltac:(lia))) as [r [Er Hr]].
    injection Er as ->. exact Hr.
  - specialize (Hub _ (Hcell c1 ltac:(lia))). cbn [fle] in Hub.
    apply Rleb_true in Hub. exact Hub.
Qed.

(** With uncertainties that are not zero, every cell of a computed grid
    is a log-density; with an uncertainty of zero, every cell is [nan]. *)
Lemma log_P_cells_log_density (prior : array -> result float)
    (obs : list observation) (a1 b1 a2 b2 : R) (logP : array2) :
  Forall (fun o => obs_sigma o <> 0) obs ->
  (forall b m lp, prior [Fin b; Fin m] = Ok lp -> log_density lp) ->
  log_P prior (xs obs) (ys obs) (sigmas obs)
    (linspace (Fin a1) (Fin b1)) (linspace (Fin a2) (Fin b2)) = Ok logP ->
  Forall log_density (ravel logP).
Proof.
  intros Hnz Hprior H. apply Forall_forall. intros v Hv.
  destruct (log_P_cells _ _ _ _ _ _ _ _ H Hv)
    as [b [m [ll [lp [Hb [Hm [Ell [Elp ->]]]]]]]].
  pose proof (linspace_finite a2 b2) as F2.
  pose proof (linspace_finite a1 b1) as F1.
  rewrite Forall_forall in F1, F2.
  destruct (F2 _ Hb) as [b' ->]. destruct (F1 _ Hm) as [m' ->].
  rewrite (log_likelihood_all_nonzero b' m' [] obs Hnz) in Ell.
  injection Ell as <-.
  destruct (Hprior _ _ _ Elp) as [->|[r ->]];
    [left; reflexivity|right; eexists; reflexivity].
Qed.

Lemma log_P_cells_NaN (prior : array -> result float)
    (obs : list observation) (a1 b1 a2 b2 : R) (logP : array2) :
  Exists (fun o => obs_sigma o = 0) obs ->
  log_P prior (xs obs) (ys obs) (sigmas obs)
    (linspace (Fin a1) (Fin b1)) (linspace (Fin a2) (Fin b2)) = Ok logP ->
  Forall (eq NaN) (ravel logP).
Proof.
  intros Hz H. apply Forall_forall. intros v Hv.
  destruct (log_P_cells _ _ _ _ _ _ _ _ H Hv)
    as [b [m [ll [lp [Hb [Hm [Ell [Elp ->]]]]]]]].
  pose proof (linspace_finite a2 b2) as F2.
  pose proof (linspace_finite a1 b1) as F1.
  rewrite Forall_forall in F1, F2.
  destruct (F2 _ Hb) as [b' ->]. destruct (F1 _ Hm) as [m' ->].
  rewrite (log_likelihood_some_zero b' m' [] obs Hz) in Ell.
  injection Ell as <-. reflexivity.
Qed.

Lemma log_density_split (l : array) :
  Forall log_density l ->
  Exists (fun v => isfinite v = true) l \/ Forall (eq NInf) l.
Proof.
  induction 1 as [|v l Hv _ [IH|IH]].
  - right. constructor.
  - left. right. exact IH.
  - destruct Hv as [->|[r ->]].
    + right. constructor; [reflexivity|exact IH].
    + left. left. reflexivity.
Qed.

(** A grid of [nan] stays one under the normalisation. *)
Lemma normalized_all_NaN (logP P : array2) :
  Forall (eq NaN) (ravel logP) -> normalized logP = Ok P ->
  Forall (eq NaN) (ravel P).
Proof.
  intros Hall H. unfold normalized in H.
  destruct (np_max (ravel logP)) as [top|e]; [|discriminate].
  cbn [bind] in H. injection H as <-. rewrite ravel_map.
  apply Forall_forall. intros v Hv. apply in_map_iff in Hv.
  destruct Hv as [w [<- Hw]]. rewrite Forall_forall in Hall.
  rewrite <- (Hall w Hw). reflexivity.
Qed.

Lemma normalized_nonempty (logP P : array2) :
  ravel logP <> [] -> normalized logP = Ok P -> ravel P <> [].
Proof.
  intros Hne H. unfold normalized in H.
  destruct (np_max (ravel logP)) as [top|e]; [|discriminate].
  cbn [bind] in H. injection H as <-. rewrite ravel_map.
  intros E. apply map_eq_nil in E. contradiction.
Qed.

(** X26. Whenever [plot_results] returns on an observation set, the
    levels that its two [contour] calls carry are either three [nan], or
    three values of the interval from 0 to 1 that do not increase. *)
Theorem plot_results_levels_range :
  forall (obs : list observation) (s1 s2 i1 i2 : R)
         (axes0 axes1 : list axes_call),
    plot_results (xs obs) (ys obs) (sigmas obs)
      (Fin s1, Fin s2) (Fin i1, Fin i2) = Ok (axes0, axes1) ->
    exists (P1 P2 : array2) (levels : array),
      let slope_range := linspace (Fin s1) (Fin s2) in
      let intercept_range := linspace (Fin i1) (Fin i2) in
      nth_error axes0 1
      = Some (contour slope_range intercept_range P1 levels "black") /\
      nth_error axes1 1
      = Some (contour slope_range intercept_range P2 levels "black") /\
      (levels = [NaN; NaN; NaN] \/
       exists l1 l2 l3 : R,
         levels = [Fin l1; Fin l2; Fin l3] /\
         0 <= l3 /\ l3 <= l2 /\ l2 <= l1 /\ l1 <= 1).
Proof.
  intros obs s1 s2 i1 i2 axes0 axes1 H. unfold plot_results in H.
  cbn [fst snd] in H.
  set (sr := linspace (Fin s1) (Fin s2)) in *.
  set (ir := linspace (Fin i1) (Fin i2)) in *.
  destruct (log_P1 (xs obs) (ys obs) (sigmas obs) sr ir) as [lP1|e] eqn:E1;
    [|discriminate].
  cbn [bind] in H.
  destruct (log_P2 (xs obs) (ys obs) (sigmas obs) sr ir) as [lP2|e] eqn:E2;
    [|discriminate].
  cbn [bind] in H.
  destruct (normalized lP1) as [P1|e] eqn:EP1; [|discriminate].
  cbn [bind] in H.
  destruct (normalized lP2) as [P2|e] eqn:EP2; [|discriminate].
  cbn [bind] in H.
  destruct (contour_levels P1) as [lv|e] eqn:Elv; [|discriminate].
  cbn [bind] in H. injection H as <- <-.
  exists P1, P2, lv. cbv zeta.
  split; [reflexivity|]. split; [reflexivity|].
  unfold log_P1, sr, ir in E1.
  pose proof (log_P_nonempty _ _ _ _ _ _ _ E1
                (linspace_nonempty _ _) (linspace_nonempty _ _)) as Hne.
  pose proof (normalized_nonempty _ _ Hne EP1) as HneP.
  assert (Hnan : Forall (eq NaN) (ravel P1) -> lv = [NaN; NaN; NaN]).
  { intros Hall. rewrite (contour_levels_all_NaN P1 HneP Hall) in Elv.
    injection Elv as <-. reflexivity. }
  destruct (sigma_zero_or_not obs) as [Hnz|Hz].
  - assert (Hld : Forall log_density (ravel lP1)).
    { apply (log_P_cells_log_density
               (fun theta => Ok (log_flat_prior theta))
               obs s1 s2 i1 i2 lP1 Hnz); [|exact E1].
      intros b m lp E. injection E as <-. apply flat_prior_log_density. }
    destruct (log_density_split _ Hld) as [Hfin|Hall].
    + right.
      destruct (normalized_log_density lP1 Hld Hfin) as [P' [E' [M D]]].
      rewrite EP1 in E'. injection E' as <-.
      destruct (contour_levels_of_densities P1 D M)
        as [l1 [l2 [l3 [Elv' [H12 [H23 [H3 H1]]]]]]].
      rewrite Elv in Elv'. injection Elv' as ->.
      exists l1, l2, l3. repeat split; assumption.
    + left. apply Hnan.
      destruct (normalized_all_rejected lP1 Hne Hall) as [P' [E' [_ A]]].
      rewrite EP1 in E'. injection E' as <-. exact A.
  - left. apply Hnan.
    apply (normalized_all_NaN lP1); [|exact EP1].
    apply (log_P_cells_NaN (fun theta => Ok (log_flat_prior theta))
             obs s1 s2 i1 i2 lP1 Hz E1).
Qed.

Lemma plot_results_levels_range_witness :
  exists (axes0 axes1 : list axes_call) (levels : array),
    plot_results (xs []) (ys []) (sigmas [])
      (Fin (3 / 10), Fin (7 / 10)) (Fin 15, Fin 35) = Ok (axes0, axes1) /\
    (levels = [NaN; NaN; NaN] \/
     exists l1 l2 l3 : R,
       levels = [Fin l1; Fin l2; Fin l3] /\
       0 <= l3 /\ l3 <= l2 /\ l2 <= l1 /\ l1 <= 1).
Proof.
  destruct (plot_results_returns [] (3 / 10) (7 / 10) 15 35)
    as [axes0 [axes1 E]].
  - constructor.
  - rewrite Rabs_pos_eq; lra.
  - rewrite Rabs_pos_eq; lra.
  - destruct (plot_results_levels_range _ _ _ _ _ _ _ E)
      as [P1 [P2 [lv [_ [_ H]]]]].
    exists axes0, axes1, lv. split; [exact E|exact H].
Defined.

Lemma linspace_above (a b : R) :
  1000 <= a -> a <= b ->
  Forall (fun v => exists r, v = Fin r /\ ~ within_bound (Fin r))
    (linspace (Fin a) (Fin b)).
Proof.
  intros Ha Hab. eapply Forall_impl; [|apply (linspace_lower a b Hab)].
  cbv beta. intros v [r [-> Hr]]. exists r. split; [reflexivity|].
  intros [r' [E Hr']]. injection E as <-.
  rewrite Rabs_pos_eq in Hr'; lra.
Qed.

Lemma log_P_all_rejected (prior : array -> result float)
    (obs : list observation) (s1 s2 i1 i2 : R) (logP : array2) :
  Forall (fun o => obs_sigma o <> 0) obs ->
  1000 <= i1 -> i1 <= i2 ->
  (forall b m, ~ within_bound b -> prior [b; m] = Ok NInf) ->
  log_P prior (xs obs) (ys obs) (sigmas obs)
    (linspace (Fin s1) (Fin s2)) (linspace (Fin i1) (Fin i2)) = Ok logP ->
  ravel logP <> [] /\ Forall (eq NInf) (ravel logP).
Proof.
  intros Hnz Hi1 Hi Hprior E. split.
  - eapply log_P_nonempty; [exact E| |]; apply linspace_nonempty.
  - apply Forall_forall. intros v Hv.
    destruct (log_P_cells _ _ _ _ _ _ _ _ E Hv)
      as [b [m [ll [lp [Hb [Hm [Ell [Elp ->]]]]]]]].
    pose proof (linspace_above i1 i2 Hi1 Hi) as Hab.
    pose proof (linspace_finite s1 s2) as Hfs.
    rewrite Forall_forall in Hab, Hfs.
    destruct (Hab _ Hb) as [rb [-> Hout]]. destruct (Hfs _ Hm) as [rm ->].
    rewrite (log_likelihood_all_nonzero rb rm [] obs Hnz) in Ell.
    injection Ell as <-. rewrite (Hprior _ _ Hout) in Elp.
    injection Elp as <-. reflexivity.
Qed.

(** X27. With intercept limits at or above 1000, so that every grid
    point is outside the box of both priors, [plot_results] still raises
    nothing: both panels are drawn from grids of [nan] with the levels
    [nan, nan, nan]. *)
Theorem plot_results_out_of_box :
  forall (obs : list observation) (s1 s2 i1 i2 : R),
    Forall (fun o => obs_sigma o <> 0) obs ->
    1000 <= i1 -> i1 <= i2 ->
    exists P1 P2 : array2,
      let slope_range := linspace (Fin s1) (Fin s2) in
      let intercept_range := linspace (Fin i1) (Fin i2) in
      plot_results (xs obs) (ys obs) (sigmas obs)
        (Fin s1, Fin s2) (Fin i1, Fin i2)
      = Ok ([contourf slope_range intercept_range P1 100 "Blues";
             contour slope_range intercept_range P1 [NaN; NaN; NaN] "black";
             set_title "Flat Prior"] ++ axes_tail,
            [contourf slope_range intercept_range P2 100 "Blues";
             contour slope_range intercept_range P2 [NaN; NaN; NaN] "black";
             set_title "Symmetric Prior"] ++ axes_tail) /\
      Forall (eq NaN) (ravel P1) /\ Forall (eq NaN) (ravel P2).
Proof.
  intros obs s1 s2 i1 i2 Hnz Hi1 Hi.
  destruct (log_P_total (fun theta => Ok (log_flat_prior theta))
              obs s1 s2 i1 i2 Hnz) as [lP1 E1];
    [intros b m; eexists; reflexivity|].
  destruct (log_P_total log_symmetric_prior obs s1 s2 i1 i2 Hnz)
    as [lP2 E2].
  { intros b m. destruct (Rlt_dec (Rabs b) 1000) as [Hb|Hb].
    - rewrite (symmetric_prior_inside b m Hb). eexists. reflexivity.
    - rewrite symmetric_prior_outside; [eexists; reflexivity|].
      intros [r [E Hr]]. injection E as <-. contradiction. }
  destruct (log_P_all_rejected (fun theta => Ok (log_flat_prior theta))
              obs s1 s2 i1 i2 lP1 Hnz Hi1 Hi)
    as [Hne1 Hall1]; [|exact E1|].
  { intros b m Hout. f_equal.
    destruct (flat_prior_cases [b; m]) as [[H _]|[_ ->]]; [|reflexivity].
    exfalso. apply Hout. inversion H; assumption. }
  destruct (log_P_all_rejected log_symmetric_prior
              obs s1 s2 i1 i2 lP2 Hnz Hi1 Hi)
    as [Hne2 Hall2]; [|exact E2|].
  { intros b m Hout. apply symmetric_prior_outside. exact Hout. }
  destruct (normalized_all_rejected lP1 Hne1 Hall1) as [P1 [EP1 [N1 A1]]].
  destruct (normalized_all_rejected lP2 Hne2 Hall2) as [P2 [EP2 [N2 A2]]].
  exists P1, P2. cbv zeta. split; [|split; assumption].
  unfold plot_results. cbn [fst snd].
  fold log_P1 in E1. fold log_P2 in E2.
  rewrite E1, E2. cbn [bind]. rewrite EP1, EP2. cbn [bind].
  rewrite (contour_levels_all_NaN P1 N1 A1). reflexivity.
Qed.

Lemma plot_results_out_of_box_witness :
  exists (axes0 axes1 : list axes_call),
    plot_results (xs []) (ys []) (sigmas [])
      (Fin (3 / 10), Fin (7 / 10)) (Fin 2000, Fin 3000) = Ok (axes0, axes1).
Proof.
  destruct (plot_results_out_of_box [] (3 / 10) (7 / 10) 2000 3000)
    as [P1 [P2 [E _]]].
  - constructor.
  - lra.
  - lra.
  - cbv zeta in E. do 2 eexists. exact E.
Defined.

Lemma linspace_cons (a b : float) :
  exists v rest, linspace a b = v :: rest.
Proof.
  destruct (linspace a b) as [|v rest] eqn:E.
  - exfalso. exact (linspace_nonempty a b E).
  - exists v, rest. reflexivity.
Qed.

(** X28. Abscissas and ordinates that do not broadcast make
    [plot_results] raise [ValueError] at the first grid point, before
    anything is drawn. *)
Theorem plot_results_shape_mismatch :
  forall (x y dy : array) (slope_limits intercept_limits : float * float),
    length x <> length y -> length x <> 1%nat -> length y <> 1%nat ->
    plot_results x y dy slope_limits intercept_limits = Raise ValueError.
Proof.
  intros x y dy sl il Hxy Hx Hy. unfold plot_results, log_P1, log_P.
  destruct (linspace_cons (fst sl) (snd sl)) as [m [sr ->]].
  destruct (linspace_cons (fst il) (snd il)) as [b [ir ->]].
  cbn [map sequence].
  rewrite (log_likelihood_mismatch b m [] x y dy Hxy Hx Hy).
  reflexivity.
Qed.

Lemma plot_results_shape_mismatch_witness :
  plot_results [Fin 1; Fin 2] [Fin 1; Fin 2; Fin 3] [Fin 1; Fin 1]
    (Fin (3 / 10), Fin (7 / 10)) (Fin 15, Fin 35) = Raise ValueError.
Proof.
  apply plot_results_shape_mismatch; simpl; lia.
Defined.
